(** * etcdserver/member.go: cluster members, their identity and their codec

    A shallow embedding of [etcdserver/member.go] and the properties of
    its operations: [NewMember], [PickPeerURL], [Clone], [nodeToMember]
    and [getVersion].

    Conventions of the embedding:
    - a Go [string] is a Rocq [string] (a sequence of 8-bit characters),
      a [[]byte] is a [list Z] of values in [0, 256);
    - an unsigned w-bit integer is a [Z], its wrap-around written [mod 2^w];
    - a nilable slice is an [option (list A)]: [None] is the nil slice,
      [Some l] a non-nil slice of contents [l] (section Clone refines this
      with backing arrays in a store, where sharing matters);
    - a pointer [*T] that may be nil is an [option T];
    - a call either returns or panics: [outcome]. *)

From Stdlib Require Import ZArith Lia List.
From Stdlib Require Import Ascii String DecimalString.
From stdpp Require Import gmap strings list sorting.

Local Open Scope Z_scope.

(** ** Panics and results *)

(** An error value: one built by [fmt.Errorf], kept as its format and its
    arguments, unformatted, or one a library returns. *)
Inductive error : Type :=
  | Errorf (format : string) (args : list fmt_arg)
      (* fmt.Errorf(format, args...) *)
  | ExternalError (msg : string)
      (* an error value produced by a library: net/http, io, encoding/json *)
with fmt_arg : Type :=
  | ArgString (s : string)
  | ArgError (e : error).

Inductive panic : Type :=
  | LogPanicf (format : string) (args : list fmt_arg) (* log.Panicf *)
  | NilDereference     (* runtime error: invalid memory address or nil pointer dereference *)
  | IndexOutOfRange.   (* runtime error: index out of range *)

Inductive outcome (A : Type) : Type :=
  | Return (a : A)
  | Panic (p : panic).
Arguments Return {A} a.
Arguments Panic {A} p.

#[global] Instance outcome_ret : MRet outcome := fun _ a => Return a.
#[global] Instance outcome_bind : MBind outcome := fun _ _ k x =>
  match x with
  | Return a => k a
  | Panic p => Panic p
  end.

(** ** Strings, bytes and slices *)

(** [[]byte(s)] *)
Definition bytes_of_string (s : string) : list Z :=
  map (fun c => Z.of_N (N_of_ascii c)) (list_ascii_of_string s).

(** [len(s)] of a nilable slice: the nil slice has length 0. *)
Definition slice_len {A} (s : option (list A)) : nat :=
  match s with
  | None => 0%nat
  | Some l => length l
  end.

(** The elements a [range] loop visits: none for the nil slice. *)
Definition slice_elems {A} (s : option (list A)) : list A :=
  match s with
  | None => []
  | Some l => l
  end.

(** The order of Go's [<=] on strings is the bytewise lexicographic one:
    [String.le], that is [String.leb s1 s2 = true]. *)

(** [sort.Strings(a)]: sorts [a] in increasing order, in place. The order
    is total and antisymmetric, so the result is the one sorted
    permutation of the input whichever algorithm computes it
    ([sort_Strings_unique] below). *)
Definition sort_Strings (a : list string) : list string :=
  merge_sort String.le a.

(** [fmt.Sprintf("%d", n)] for a signed integer. *)
Definition Sprintf_d (n : Z) : string :=
  NilZero.string_of_int (Z.to_int n).

(** ** crypto/sha1 and encoding/binary

    [sha1.Sum] of the Go library, as FIPS 180-4 defines SHA-1 and as the
    library's [blockGeneric] computes it, on 32-bit words. The examples
    [sha1_empty], [sha1_abc] and [sha1_two_blocks] below run it on the
    test vectors of the standard. *)

Module SHA1.

Definition u32 (x : Z) : Z := x mod 2 ^ 32.

(** [bits.RotateLeft32(x, k)] on a 32-bit word, [0 < k < 32]. *)
Definition RotateLeft32 (x k : Z) : Z :=
  Z.lor (u32 (Z.shiftl x k)) (Z.shiftr x (32 - k)).

(** [^x] on a 32-bit word. *)
Definition not32 (x : Z) : Z := Z.lxor x 0xFFFFFFFF.

Definition add32 (x y : Z) : Z := u32 (x + y).

(** Big-endian bytes of a [w]-byte unsigned integer, most significant
    first. *)
Fixpoint be_bytes (w : nat) (x : Z) : list Z :=
  match w with
  | O => []
  | S w' => (Z.shiftr x (8 * Z.of_nat w')) mod 256 :: be_bytes w' x
  end.

(** The padding of a message of [len] bytes: a 1 bit, 0 bits up to 56
    bytes mod 64, then the length in bits as a 64-bit big-endian
    integer. *)
Definition padding (len : Z) : list Z :=
  let t := if len mod 64 <? 56 then 56 - len mod 64
           else 64 + 56 - len mod 64 in
  0x80 :: repeat 0 (Z.to_nat (t - 1))
    ++ be_bytes 8 ((len * 8) mod 2 ^ 64).

(** The 32-bit big-endian words of a byte sequence. *)
Fixpoint words_of (n : nat) (p : list Z) : list Z :=
  match n with
  | O => []
  | S n' =>
      match p with
      | b0 :: b1 :: b2 :: b3 :: p' =>
          Z.lor (Z.lor (Z.lor (Z.shiftl b0 24) (Z.shiftl b1 16))
                   (Z.shiftl b2 8)) b3
          :: words_of n' p'
      | _ => []
      end
  end.

(** The message schedule: [k] more words after the 16 of the block. *)
Fixpoint schedule (k : nat) (w : list Z) : list Z :=
  match k with
  | O => w
  | S k' =>
      let t := length w in
      let at_ i := nth (t - i) w 0 in
      schedule k'
        (w ++ [RotateLeft32
                 (Z.lxor (Z.lxor (Z.lxor (at_ 3%nat) (at_ 8%nat))
                            (at_ 14%nat)) (at_ 16%nat)) 1])
  end.

Definition K0 : Z := 0x5A827999.
Definition K1 : Z := 0x6ED9EBA1.
Definition K2 : Z := 0x8F1BBCDC.
Definition K3 : Z := 0xCA62C1D6.

Definition state : Type := (Z * Z * Z * Z * Z)%type.

(** One of the 80 rounds, on the word [wi] of index [i]. *)
Definition round (i : nat) (s : state) (wi : Z) : state :=
  let '(a, b, c, d, e) := s in
  let '(f, k) :=
    if (i <? 20)%nat then (Z.lor (Z.land b c) (Z.land (not32 b) d), K0)
    else if (i <? 40)%nat then (Z.lxor (Z.lxor b c) d, K1)
    else if (i <? 60)%nat then
      (Z.lor (Z.land (Z.lor b c) d) (Z.land b c), K2)
    else (Z.lxor (Z.lxor b c) d, K3) in
  let t := add32 (add32 (add32 (add32 (RotateLeft32 a 5) f) e) wi) k in
  (t, a, RotateLeft32 b 30, c, d).

Fixpoint rounds (i : nat) (s : state) (w : list Z) : state :=
  match w with
  | [] => s
  | wi :: w' => rounds (S i) (round i s wi) w'
  end.

(** The compression of one 64-byte chunk into the chaining value. *)
Definition block (h : state) (chunk : list Z) : state :=
  let '(h0, h1, h2, h3, h4) := h in
  let w := schedule 64 (words_of 16 chunk) in
  let '(a, b, c, d, e) := rounds 0 h w in
  (add32 h0 a, add32 h1 b, add32 h2 c, add32 h3 d, add32 h4 e).

Fixpoint blocks (n : nat) (h : state) (p : list Z) : state :=
  match n with
  | O => h
  | S n' => blocks n' (block h (take 64 p)) (drop 64 p)
  end.

Definition init : state :=
  (0x67452301, 0xEFCDAB89, 0x98BADCFE, 0x10325476, 0xC3D2E1F0).

(** [sha1.Sum(data)]: the 20 bytes of the digest. *)
Definition Sum (data : list Z) : list Z :=
  let p := data ++ padding (Z.of_nat (length data)) in
  let '(h0, h1, h2, h3, h4) := blocks (length p / 64) init p in
  be_bytes 4 h0 ++ be_bytes 4 h1 ++ be_bytes 4 h2
    ++ be_bytes 4 h3 ++ be_bytes 4 h4.

End SHA1.

Definition u64 (x : Z) : Z := x mod 2 ^ 64.

(** [binary.BigEndian.Uint64(b)]; the caller passes [hash[:8]] of a
    20-byte array, so that the bounds check [_ = b[7]] passes. *)
Definition BigEndian_Uint64 (b : list Z) : Z :=
  let at_ i := nth i b 0 in
  Z.lor (Z.lor (Z.lor (Z.lor (Z.lor (Z.lor (Z.lor
    (at_ 7%nat)
    (u64 (Z.shiftl (at_ 6%nat) 8)))
    (u64 (Z.shiftl (at_ 5%nat) 16)))
    (u64 (Z.shiftl (at_ 4%nat) 24)))
    (u64 (Z.shiftl (at_ 3%nat) 32)))
    (u64 (Z.shiftl (at_ 2%nat) 40)))
    (u64 (Z.shiftl (at_ 1%nat) 48)))
    (u64 (Z.shiftl (at_ 0%nat) 56)).

(** ** The member record *)

(** [types.ID] is a [uint64]. *)
Definition ID_t : Type := Z.

(** RaftAttributes represents the raft related attributes of an etcd
    member. *)
Record RaftAttributes : Type := mkRaftAttributes {
  PeerURLs : option (list string)
}.

(** Attributes represents all the non-raft related attributes of an etcd
    member. *)
Record Attributes : Type := mkAttributes {
  Name : string;
  ClientURLs : option (list string)
}.

(** [Member] embeds [RaftAttributes] and [Attributes]: their fields are
    promoted, which the coercions render. *)
Record Member : Type := mkMember {
  ID : ID_t;
  Member_RaftAttributes :> RaftAttributes;
  Member_Attributes :> Attributes
}.

#[global] Instance RaftAttributes_eq_dec : EqDecision RaftAttributes.
Proof. solve_decision. Defined.
#[global] Instance Attributes_eq_dec : EqDecision Attributes.
Proof. solve_decision. Defined.
#[global] Instance Member_eq_dec : EqDecision Member.
Proof. solve_decision. Defined.

(** The zero values of the two embedded structs. *)
Definition zero_RaftAttributes : RaftAttributes := mkRaftAttributes None.
Definition zero_Attributes : Attributes := mkAttributes "" None.

(** Modelled from the spec: [types.URLs] of pkg/types, which is not among
    the sources. The spec treats an endpoint as an opaque string, so a
    URL is the string its [String()] yields and [StringSlice] builds a
    new, non-nil slice of these strings in the same order. *)
Definition URLs : Type := list string.
Definition StringSlice (us : URLs) : option (list string) := Some us.

(** A [time.Time], by what [NewMember] reads of it: its [Unix()]
    seconds, an [int64]. *)
Record Time : Type := mkTime { Unix : Z }.

(** ** NewMember *)

(** NewMember creates a Member without an ID and generates one based on
    the name, peer URLs. [sort.Strings(m.PeerURLs)] sorts the slice held
    by the new record itself, in place; the loop then appends the bytes
    of each of its elements to [b]. *)
Definition NewMember (name : string) (peerURLs : URLs) (clusterName : string)
    (now : option Time) : outcome (option Member) :=
  let m := mkMember 0 (mkRaftAttributes (StringSlice peerURLs))
             (mkAttributes name None) in
  let m := mkMember (ID m)
             (mkRaftAttributes (sort_Strings <$> PeerURLs m))
             (Member_Attributes m) in
  let b := fold_left (fun b p => b ++ bytes_of_string p)
             (slice_elems (PeerURLs m)) [] in
  let b := b ++ bytes_of_string clusterName in
  let b := match now with
           | Some t => b ++ bytes_of_string (Sprintf_d (Unix t))
           | None => b
           end in
  let hash := SHA1.Sum b in
  let m := mkMember (BigEndian_Uint64 (take 8 hash))
             (Member_RaftAttributes m) (Member_Attributes m) in
  Return (Some m).

(** ** PickPeerURL *)

(** The global source of math/rand: a state and the draw [rand.Intn],
    which returns a number and the next state. *)
Class RandSource : Type := {
  rng : Type;
  rand_Intn : rng -> Z -> Z * rng
}.

(** [s[i]] with its bounds check. *)
Definition index {A} (s : option (list A)) (i : Z) : outcome A :=
  if (i <? 0) || (Z.of_nat (slice_len s) <=? i) then Panic IndexOutOfRange
  else match slice_elems s !! Z.to_nat i with
       | Some x => Return x
       | None => Panic IndexOutOfRange
       end.

(** PickPeerURL chooses a random address from a given Member's PeerURLs.
    It will panic if there is no PeerURLs available in Member. The
    receiver is a non-nil pointer. *)
Definition PickPeerURL `{RandSource} (m : Member) (g : rng)
    : outcome (string * rng) :=
  if (slice_len (PeerURLs m) =? 0)%nat then
    Panic (LogPanicf "member should always have some peer url" [])
  else
    let '(i, g') := rand_Intn g (Z.of_nat (slice_len (PeerURLs m))) in
    x ← index (PeerURLs m) i; Return (x, g').

(** ** The store and the libraries nodeToMember and getVersion call *)

(** Modelled from the spec: [store.NodeExtern] of the store package,
    which is not among the sources: a node of the configuration tree with
    its key, its value (a [*string], nil for a node that holds none) and
    its child nodes (non-nil pointers). *)
#[warnings="-register-all"]
Inductive NodeExtern : Type := mkNodeExtern {
  Key : string;
  Value : option string;
  Nodes : list NodeExtern
}.

(** Modelled from the spec: the suffixes [raftAttributesSuffix] and
    [attributesSuffix], constants of the package declared outside
    member.go; the spec gives the keys [members/<identity>/raftAttributes]
    and [members/<identity>/attributes]. *)
Definition raftAttributesSuffix : string := "raftAttributes".
Definition attributesSuffix : string := "attributes".

(** Modelled from the spec: [version.Versions] of the version package,
    which is not among the sources: the version descriptor, with the
    server version. *)
Record Versions : Type := mkVersions { Server : string }.

(** A response of net/http, by what [getVersion] does with it:
    [ioutil.ReadAll(resp.Body)] yields the body or an error. *)
Record Response : Type := mkResponse { ReadAll_Body : string + error }.

(** The library functions the two operations call, kept abstract: every
    property below holds whatever they compute.
    - [path.Join] of two elements and [path.Base];
    - [types.IDFromString];
    - [json.Unmarshal(data, &v)] at the three types it is used at: it
      returns the value [v] holds afterwards (it may have filled a part
      of it when it fails) and the error. *)
Class Externals : Type := {
  path_Join : string -> string -> string;
  path_Base : string -> string;
  IDFromString : string -> ID_t + error;
  Unmarshal_RaftAttributes :
    string -> RaftAttributes -> RaftAttributes * option error;
  Unmarshal_Attributes : string -> Attributes -> Attributes * option error;
  Unmarshal_Versions : string -> Versions -> Versions * option error
}.

(** [cc.Get(url)] of the [http.Client] over a transport: the [k]-th
    request of a sweep, to [url], either yields a response or fails with
    an error. *)
Definition Transport : Type := nat -> string -> Response + error.

Section Codec.
Context `{Externals}.

Definition mustParseMemberIDFromKey (key : string) : outcome ID_t :=
  match IDFromString (path_Base key) with
  | inl id => Return id
  | inr err =>
      Panic (LogPanicf "unexpected parse member id error: %v" [ArgError err])
  end.

(** The loop of [nodeToMember] over the child nodes: it fills the map
    [attrs], returns at the first key that is neither of the two, and
    dereferences the value of every other child. [[]byte(s)] is never
    nil, so that [attrs[k] != nil] exactly when [k] is in the map: the
    map holds the strings. *)
Fixpoint nodeToMember_loop (raftAttrKey attrKey : string)
    (nodes : list NodeExtern) (attrs : gmap string string)
    : outcome (gmap string string + error) :=
  match nodes with
  | [] => Return (inl attrs)
  | nn :: nodes' =>
      if bool_decide (Key nn ≠ raftAttrKey) && bool_decide (Key nn ≠ attrKey)
      then Return (inr (Errorf "unknown key %q" [ArgString (Key nn)]))
      else
        match Value nn with
        | None => Panic NilDereference
        | Some v =>
            nodeToMember_loop raftAttrKey attrKey nodes'
              (<[Key nn := v]> attrs)
        end
  end.

(** nodeToMember builds member from a key value node. The child nodes
    of the given node MUST be sorted by key. The result is the pair
    of the record pointer and the error. *)
Definition nodeToMember (n : NodeExtern)
    : outcome (option Member * option error) :=
  id ← mustParseMemberIDFromKey (Key n);
  let m := mkMember id zero_RaftAttributes zero_Attributes in
  let raftAttrKey := path_Join (Key n) raftAttributesSuffix in
  let attrKey := path_Join (Key n) attributesSuffix in
  r ← nodeToMember_loop raftAttrKey attrKey (Nodes n) ∅;
  match r with
  | inr err => Return (None, Some err)
  | inl attrs =>
      match attrs !! raftAttrKey with
      | Some data =>
          match Unmarshal_RaftAttributes data (Member_RaftAttributes m) with
          | (_, Some err) =>
              Return (None,
                Some (Errorf "unmarshal raftAttributes error: %v"
                        [ArgError err]))
          | (ra, None) =>
              let m := mkMember (ID m) ra (Member_Attributes m) in
              match attrs !! attrKey with
              | Some data =>
                  match Unmarshal_Attributes data (Member_Attributes m) with
                  | (a, Some err) =>
                      Return
                        (Some (mkMember (ID m) (Member_RaftAttributes m) a),
                         Some (Errorf "unmarshal attributes error: %v"
                                 [ArgError err]))
                  | (a, None) =>
                      Return
                        (Some (mkMember (ID m) (Member_RaftAttributes m) a),
                         None)
                  end
              | None => Return (Some m, None)
              end
          end
      | None =>
          Return (None, Some (Errorf "raftAttributes key doesn't exist" []))
      end
  end.

(** The loop of [getVersion]. [err] is the variable declared before the
    loop: only [resp, err = cc.Get(...)] assigns it. The [err] of
    [b, err := ioutil.ReadAll(resp.Body)] and that of
    [if err := json.Unmarshal(b, &vers)] are new variables of the inner
    scopes, which end with the iteration. [k] counts the requests. *)
Fixpoint getVersion_loop (cc : Transport) (k : nat) (urls : list string)
    (err : option error) : string * option error :=
  match urls with
  | [] => ("", err)
  | u :: urls' =>
      match cc k (u +:+ "/version") with
      | inr e => getVersion_loop cc (S k) urls' (Some e)
      | inl resp =>
          let err := @None error in
          match ReadAll_Body resp with
          | inr _ => getVersion_loop cc (S k) urls' err
          | inl b =>
              match Unmarshal_Versions b (mkVersions "") with
              | (_, Some _) => getVersion_loop cc (S k) urls' err
              | (vers, None) => (Server vers, None)
              end
          end
      end
  end.

(** getVersion returns the version of the given member via its
    peerURLs. Returns the last error if it fails to get the version.
    The record is a non-nil pointer; the result is the pair
    [(string, error)]. *)
Definition getVersion (m : Member) (tr : Transport)
    : string * option error :=
  getVersion_loop tr 0 (slice_elems (PeerURLs m)) None.

End Codec.

(** ** Clone, over a store of backing arrays

    What [Clone] promises is about sharing, so here a slice is what Go
    makes it: a pointer into a backing array with a length and a
    capacity, and the arrays live in a store. [member_val] reads a record
    of this module back into a [Member] above. *)

Module Heap.

Definition loc : Type := positive.

(** The backing arrays of the slices of strings. *)
Abbreviation store := (gmap loc (list string)).

(** A slice header: nil, or a window [off, off + len) of capacity [cap]
    into the array at [array]. *)
Inductive slice : Type :=
  | nil_slice
  | Slice (array : loc) (off len cap : nat).

Record Member : Type := mkMember {
  ID : ID_t;
  PeerURLs : slice;
  Name : string;
  ClientURLs : slice
}.

Definition is_nil (s : slice) : bool :=
  match s with
  | nil_slice => true
  | Slice _ _ _ _ => false
  end.

Definition len (s : slice) : nat :=
  match s with
  | nil_slice => 0%nat
  | Slice _ _ n _ => n
  end.

(** The elements of a slice in a store. *)
Definition elems (h : store) (s : slice) : list string :=
  match s with
  | nil_slice => []
  | Slice l off n _ => take n (drop off (default [] (h !! l)))
  end.

(** The slice as a value: nil, or its elements. *)
Definition slice_val (h : store) (s : slice) : option (list string) :=
  if is_nil s then None else Some (elems h s).

(** A slice of a running program lies within an allocated array. *)
Definition wf_slice (h : store) (s : slice) : Prop :=
  match s with
  | nil_slice => True
  | Slice l off n c =>
      exists arr, h !! l = Some arr /\ (n <= c)%nat
                  /\ (off + c <= length arr)%nat
  end.

Definition wf_member (h : store) (m : Member) : Prop :=
  wf_slice h (PeerURLs m) /\ wf_slice h (ClientURLs m).

(** [make([]string, n)]: a new array of [n] empty strings. (For [n = 0]
    the runtime may hand out one address for all empty arrays; nothing
    can be read or written through such a slice, so a new location
    stands for it.) *)
Definition make (n : nat) (h : store) : slice * store :=
  let l := fresh (dom h) in
  (Slice l 0 n n, <[l := replicate n ""]> h).

(** [copy(dst, src)]: the first [min(len(dst), len(src))] elements of
    [src] overwrite those of [dst]. *)
Definition copy (dst src : slice) (h : store) : store :=
  match dst with
  | nil_slice => h
  | Slice l off n _ =>
      let k := (n `min` len src)%nat in
      let arr := default [] (h !! l) in
      <[l := take off arr ++ take k (elems h src) ++ drop (off + k) arr]> h
  end.

(** [s[i] = v] with its bounds check. *)
Definition set_index (s : slice) (i : nat) (v : string) (h : store)
    : outcome store :=
  match s with
  | nil_slice => Panic IndexOutOfRange
  | Slice l off n _ =>
      if (i <? n)%nat then
        Return (<[l := <[(off + i)%nat := v]> (default [] (h !! l))]> h)
      else Panic IndexOutOfRange
  end.

(** [Clone] returns the pointer to the new record and the store with
    the arrays it has allocated. *)
Definition Clone (m : option Member) (h : store) : option Member * store :=
  match m with
  | None => (None, h)
  | Some m =>
      let mm := mkMember (ID m) nil_slice (Name m) nil_slice in
      let '(mm, h) :=
        if negb (is_nil (PeerURLs m)) then
          let '(s, h) := make (len (PeerURLs m)) h in
          let mm := mkMember (ID mm) s (Name mm) (ClientURLs mm) in
          (mm, copy (PeerURLs mm) (PeerURLs m) h)
        else (mm, h) in
      let '(mm, h) :=
        if negb (is_nil (ClientURLs m)) then
          let '(s, h) := make (len (ClientURLs m)) h in
          let mm := mkMember (ID mm) (PeerURLs mm) (Name mm) s in
          (mm, copy (ClientURLs mm) (ClientURLs m) h)
        else (mm, h) in
      (Some mm, h)
  end.

(** A write through the slice [s]: some [s[i] = v] that does not panic
    takes the store [h] to [h']. *)
Definition written_through (s : slice) (h h' : store) : Prop :=
  exists i v, set_index s i v h = Return h'.

(** The array a slice points into. *)
Definition array_of (s : slice) : option loc :=
  match s with
  | nil_slice => None
  | Slice l _ _ _ => Some l
  end.

(** The two statements [Clone] runs for each of the two sequences, for
    the proofs: the new slice and the store after them. *)
Definition clone_slice (s : slice) (h : store) : slice * store :=
  if negb (is_nil s) then
    let '(d, h) := make (len s) h in (d, copy d s h)
  else (nil_slice, h).

End Heap.

(** The record a [Heap.Member] stands for in a store. *)
Definition member_val (h : gmap Heap.loc (list string)) (m : Heap.Member)
    : Member :=
  mkMember (Heap.ID m)
    (mkRaftAttributes (Heap.slice_val h (Heap.PeerURLs m)))
    (mkAttributes (Heap.Name m) (Heap.slice_val h (Heap.ClientURLs m))).

(** ** The identity as the specification words it

    The lexicographically sorted endpoint strings concatenated, followed
    by the salt, followed by the decimal string of the Unix timestamp
    when there is one; the first 8 bytes of the SHA-1 digest of that, as
    a big-endian unsigned integer. *)

(** The value of a byte sequence read as a big-endian unsigned integer. *)
Definition be_uint (bs : list Z) : Z :=
  fold_left (fun acc b => acc * 256 + b) bs 0.

Definition spec_hash_input (sorted : list string) (salt : string)
    (now : option Time) : string :=
  String.concat "" sorted +:+ salt
    +:+ match now with
        | Some t => Sprintf_d (Unix t)
        | None => ""
        end.

Definition spec_identity (sorted : list string) (salt : string)
    (now : option Time) : Z :=
  be_uint (take 8 (SHA1.Sum (bytes_of_string (spec_hash_input sorted salt now)))).

Definition is_byte (b : Z) : Prop := 0 <= b < 256.

(** A call that rejects its input: it panics, or returns no record. *)
Definition rejected (r : outcome (option Member)) : Prop :=
  match r with
  | Panic _ => True
  | Return None => True
  | Return (Some _) => False
  end.

(** ** The words of the specification about a subtree node *)

(** The values held by the children of key [k], in order. The blob of key
    [k] is present with contents [data] when this is [[Some data]]: one
    child has the key and it carries [data]; it is absent when no child
    has the key. When several children have the key, the loop of
    [nodeToMember] keeps the last. *)
Definition blobs (k : string) (nodes : list NodeExtern) : list (option string) :=
  Value <$> filter (fun nn => Key nn = k) nodes.

Definition recognized (raftAttrKey attrKey : string) (nn : NodeExtern) : Prop :=
  Key nn = raftAttrKey \/ Key nn = attrKey.

(** The child carries a value: its [Value] is not nil. *)
Definition valued (nn : NodeExtern) : Prop := is_Some (Value nn).

(** What the map [attrs] holds at [k] once the loop is through [nodes]:
    the value of the last child of key [k], else what it held before. *)
Definition attrs_after (k : string) (nodes : list NodeExtern)
    (before : option string) : option string :=
  match last (blobs k nodes) with
  | Some v => v
  | None => before
  end.

#[global] Instance recognized_dec rk ak nn : Decision (recognized rk ak nn).
Proof. unfold recognized. apply _. Defined.

(** The rest of [nodeToMember] once the identity is parsed as [id] and the
    loop has returned: the statements after the loop, for the proofs. *)
Definition after_loop `{Externals} (n : NodeExtern) (id : ID_t)
    (r : gmap string string + error)
    : outcome (option Member * option error) :=
  match r with
  | inr err => Return (None, Some err)
  | inl attrs =>
      match attrs !! path_Join (Key n) raftAttributesSuffix with
      | Some data =>
          match Unmarshal_RaftAttributes data zero_RaftAttributes with
          | (_, Some err) =>
              Return (None,
                Some (Errorf "unmarshal raftAttributes error: %v"
                        [ArgError err]))
          | (ra, None) =>
              match attrs !! path_Join (Key n) attributesSuffix with
              | Some data =>
                  match Unmarshal_Attributes data zero_Attributes with
                  | (a, Some err) =>
                      Return
                        (Some (mkMember id ra a),
                         Some (Errorf "unmarshal attributes error: %v"
                                 [ArgError err]))
                  | (a, None) => Return (Some (mkMember id ra a), None)
                  end
              | None => Return (Some (mkMember id ra zero_Attributes), None)
              end
          end
      | None =>
          Return (None, Some (Errorf "raftAttributes key doesn't exist" []))
      end
  end.

(** ** The words of the specification about an endpoint of the probe *)

(** What the [k]-th request of a sweep, to the endpoint [u], comes to. *)
Inductive probe_result : Type :=
  | TransportFailure (e : error)
  | BodyReadFailure (e : error)
  | ParseFailure (e : error)
  | Parsed (server : string).

Definition probe `{Externals} (cc : Transport) (k : nat) (u : string)
    : probe_result :=
  match cc k (u +:+ "/version") with
  | inr e => TransportFailure e
  | inl resp =>
      match ReadAll_Body resp with
      | inr e => BodyReadFailure e
      | inl b =>
          match Unmarshal_Versions b (mkVersions "") with
          | (_, Some e) => ParseFailure e
          | (vers, None) => Parsed (Server vers)
          end
      end
  end.

Definition probe_failure (r : probe_result) : option error :=
  match r with
  | TransportFailure e | BodyReadFailure e | ParseFailure e => Some e
  | Parsed _ => None
  end.

Definition failed (r : probe_result) : Prop := is_Some (probe_failure r).

(** The results of a sweep over [urls], the first request being number
    [k]. *)
Fixpoint sweep `{Externals} (cc : Transport) (k : nat) (urls : list string)
    : list probe_result :=
  match urls with
  | [] => []
  | u :: urls' => probe cc k u :: sweep cc (S k) urls'
  end.

(** ** Instances of the libraries, for the examples

    Stand-ins with the shape of the library functions: [path.Join] and
    [path.Base] on clean paths, the hexadecimal [types.IDFromString], and
    a codec that is not JSON: a blob that starts with an opening brace
    decodes to the text after the brace, any other blob is an error. *)

Definition demo_Join (a b : string) : string := a +:+ "/" +:+ b.

Fixpoint demo_Base_go (cur s : string) : string :=
  match s with
  | EmptyString => cur
  | String c s' =>
      if Ascii.eqb c "/" then demo_Base_go "" s'
      else demo_Base_go (cur +:+ String c "") s'
  end.

Definition hex_digit (c : ascii) : option Z :=
  let n := Z.of_N (N_of_ascii c) in
  if (48 <=? n) && (n <=? 57) then Some (n - 48)
  else if (97 <=? n) && (n <=? 102) then Some (n - 87)
  else if (65 <=? n) && (n <=? 70) then Some (n - 55)
  else None.

Fixpoint parse_hex (acc : Z) (s : string) : option Z :=
  match s with
  | EmptyString => Some acc
  | String c s' =>
      match hex_digit c with
      | Some d => parse_hex (acc * 16 + d) s'
      | None => None
      end
  end.

Definition demo_IDFromString (s : string) : ID_t + error :=
  match s with
  | EmptyString => inr (ExternalError "invalid syntax")
  | _ =>
      match parse_hex 0 s with
      | Some id =>
          if id <? 2 ^ 64 then inl id
          else inr (ExternalError "value out of range")
      | None => inr (ExternalError "invalid syntax")
      end
  end.

Definition demo_decode (data : string) : string + error :=
  match data with
  | String "{" rest => inl rest
  | _ => inr (ExternalError "invalid character")
  end.

Definition demo_Externals : Externals := {|
  path_Join := demo_Join;
  path_Base := demo_Base_go "";
  IDFromString := demo_IDFromString;
  Unmarshal_RaftAttributes data v :=
    match demo_decode data with
    | inl x => (mkRaftAttributes (Some [x]), None)
    | inr e => (v, Some e)
    end;
  Unmarshal_Attributes data v :=
    match demo_decode data with
    | inl x => (mkAttributes x (ClientURLs v), None)
    | inr e => (v, Some e)
    end;
  Unmarshal_Versions data v :=
    match demo_decode data with
    | inl x => (mkVersions x, None)
    | inr e => (v, Some e)
    end
|}.

(** A source of numbers for the examples: it counts. *)
Definition demo_RandSource : RandSource := {|
  rng := Z;
  rand_Intn g n := (g mod n, g + 1)
|}.

(** ** The keys of the store *)

(** The constants [storeMembersPrefix] and [storeRemovedMembersPrefix] of
    the package and the method [String] of [types.ID] are declared
    outside member.go: they are parameters. *)
Class StoreKeys : Type := {
  storeMembersPrefix : string;
  storeRemovedMembersPrefix : string;
  ID_String : ID_t -> string
}.

Section Keys.
Context `{Externals} `{StoreKeys}.

Definition memberStoreKey (id : ID_t) : string :=
  path_Join storeMembersPrefix (ID_String id).

Definition MemberAttributesStorePath (id : ID_t) : string :=
  path_Join (memberStoreKey id) attributesSuffix.

Definition removedMemberStoreKey (id : ID_t) : string :=
  path_Join storeRemovedMembersPrefix (ID_String id).

End Keys.

(** ** The two sort interfaces

    A [[]*Member] is the list of its pointers, nil or not (a nil slice
    and an empty one behave alike here: every index is out of range).
    [Swap] assigns in place: it returns the slice as it is afterwards.
    The operands of [Less] are evaluated from left to right. *)

Definition SortableMemberSlice : Type := list (option Member).
Definition SortableMemberSliceByPeerURLs : Type := list (option Member).

(** [*p] and [p.f] on a pointer. *)
Definition deref {A} (p : option A) : outcome A :=
  match p with
  | Some a => Return a
  | None => Panic NilDereference
  end.

Definition SortableMemberSlice_Len (s : SortableMemberSlice) : Z :=
  Z.of_nat (length s).

Definition SortableMemberSlice_Less (s : SortableMemberSlice) (i j : Z)
    : outcome bool :=
  pi ← index (Some s) i; mi ← deref pi;
  pj ← index (Some s) j; mj ← deref pj;
  Return (ID mi <? ID mj).

Definition SortableMemberSlice_Swap (s : SortableMemberSlice) (i j : Z)
    : outcome SortableMemberSlice :=
  pj ← index (Some s) j; pi ← index (Some s) i;
  Return (<[Z.to_nat j := pi]> (<[Z.to_nat i := pj]> s)).

Definition SortableMemberSliceByPeerURLs_Len
    (p : SortableMemberSliceByPeerURLs) : Z :=
  Z.of_nat (length p).

Definition SortableMemberSliceByPeerURLs_Less
    (p : SortableMemberSliceByPeerURLs) (i j : Z) : outcome bool :=
  pi ← index (Some p) i; mi ← deref pi;
  ui ← index (PeerURLs (mi : Member)) 0;
  pj ← index (Some p) j; mj ← deref pj;
  uj ← index (PeerURLs (mj : Member)) 0;
  Return (String.ltb ui uj).

Definition SortableMemberSliceByPeerURLs_Swap
    (p : SortableMemberSliceByPeerURLs) (i j : Z)
    : outcome SortableMemberSliceByPeerURLs :=
  pj ← index (Some p) j; pi ← index (Some p) i;
  Return (<[Z.to_nat j := pi]> (<[Z.to_nat i := pj]> p)).

(** The slice holds at the index [i] a pointer to the record [m]: the
    index is in range and the pointer is not nil. *)
Definition member_at (s : list (option Member)) (i : Z) (m : Member) : Prop :=
  0 <= i /\ s !! Z.to_nat i = Some (Some m).

(** The first routing endpoint of a record, when it has one. *)
Definition first_PeerURL (m : Member) : option string :=
  slice_elems (PeerURLs m) !! 0%nat.

(** ** More words about the probe and the nodes *)

(** The version of the first endpoint of a sweep that answers with one. *)
Fixpoint first_parsed (rs : list probe_result) : option string :=
  match rs with
  | [] => None
  | Parsed v :: _ => Some v
  | _ :: rs' => first_parsed rs'
  end.

(** The error of the last request of a sweep, when it failed in the
    transport. *)
Definition last_transport_error (rs : list probe_result) : option error :=
  match last rs with
  | Some (TransportFailure e) => Some e
  | _ => None
  end.

(** What [nodeToMember] reads of a child: its key and its value. *)
Definition key_value (nn : NodeExtern) : string * option string :=
  (Key nn, Value nn).

Definition is_panic {A} (r : outcome A) : Prop :=
  match r with
  | Panic _ => True
  | Return _ => False
  end.

(** Lowercase hexadecimal digits, for the examples: the [String] of an
    identity. *)
Definition hex_char (d : Z) : ascii :=
  ascii_of_N (Z.to_N (if d <? 10 then 48 + d else 87 + d)).

Fixpoint hex_go (fuel : nat) (n : Z) (acc : string) : string :=
  match fuel with
  | O => acc
  | S fuel' =>
      let acc' := String (hex_char (n mod 16)) acc in
      if n <? 16 then acc' else hex_go fuel' (n / 16) acc'
  end.

Definition demo_StoreKeys : StoreKeys := {|
  storeMembersPrefix := "/0/members";
  storeRemovedMembersPrefix := "/0/removed_members";
  ID_String id := hex_go 16 id ""
|}.

(** * Properties *)

(** ** The order on strings and sort.Strings *)

Lemma sort_Strings_Sorted a : Sorted String.le (sort_Strings a).
Proof. apply (Sorted_merge_sort String.le). Qed.

Lemma sort_Strings_Permutation a : sort_Strings a ≡ₚ a.
Proof. apply (merge_sort_Permutation String.le). Qed.

(** Whatever computes it, the sorted permutation of [a] is
    [sort_Strings a]. *)
Lemma sort_Strings_unique a l :
  Sorted String.le l -> l ≡ₚ a -> sort_Strings a = l.
Proof.
  intros Hs Hp. apply (Sorted_unique String.le); auto using sort_Strings_Sorted.
  rewrite Hp. apply sort_Strings_Permutation.
Qed.

Lemma sort_Strings_perm_eq a1 a2 : a1 ≡ₚ a2 -> sort_Strings a1 = sort_Strings a2.
Proof.
  intros Hp. apply sort_Strings_unique; [apply sort_Strings_Sorted|].
  rewrite sort_Strings_Permutation. by symmetry.
Qed.

Lemma sort_Strings_sorted_id a : Sorted String.le a -> sort_Strings a = a.
Proof. intros Hs. by apply sort_Strings_unique. Qed.

(** ** crypto/sha1 and encoding/binary *)

(** The model of [sha1.Sum] on the test vectors of FIPS 180. *)
Example sha1_empty :
  be_uint (SHA1.Sum []) = 0xda39a3ee5e6b4b0d3255bfef95601890afd80709.
Proof. vm_compute. reflexivity. Qed.

Example sha1_abc :
  be_uint (SHA1.Sum (bytes_of_string "abc"))
  = 0xa9993e364706816aba3e25717850c26c9cd0d89d.
Proof. vm_compute. reflexivity. Qed.

Example sha1_two_blocks :
  be_uint (SHA1.Sum (bytes_of_string
    "abcdbcdecdefdefgefghfghighijhijkijkljklmklmnlmnomnopnopq"))
  = 0x84983e441c3bd26ebaae4aa1f95129e5e54670f1.
Proof. vm_compute. reflexivity. Qed.

Lemma be_bytes_length w x : length (SHA1.be_bytes w x) = w.
Proof. induction w; simpl; congruence. Qed.

Lemma be_bytes_range w x : Forall is_byte (SHA1.be_bytes w x).
Proof.
  induction w; simpl; constructor; auto.
  unfold is_byte. apply Z.mod_pos_bound. lia.
Qed.

Lemma sha1_Sum_length data : length (SHA1.Sum data) = 20%nat.
Proof.
  unfold SHA1.Sum.
  destruct (SHA1.blocks _ _ _) as [[[[h0 h1] h2] h3] h4].
  rewrite !length_app, !be_bytes_length. reflexivity.
Qed.

Lemma sha1_Sum_range data : Forall is_byte (SHA1.Sum data).
Proof.
  unfold SHA1.Sum.
  destruct (SHA1.blocks _ _ _) as [[[[h0 h1] h2] h3] h4].
  rewrite !Forall_app. repeat split; apply be_bytes_range.
Qed.

Lemma land_low_high a b n :
  0 <= n -> 0 <= a < 2 ^ n -> Z.land a (b * 2 ^ n) = 0.
Proof.
  intros Hn Ha. apply Z.bits_inj'. intros i Hi.
  rewrite Z.land_spec, Z.bits_0.
  destruct (Z.lt_ge_cases i n) as [Hlt|Hge].
  - rewrite Z.mul_pow2_bits_low by lia. apply andb_false_r.
  - destruct (Z.eq_dec a 0) as [->|Hne]; [by rewrite Z.bits_0|].
    rewrite (Z.bits_above_log2 a i); [done|lia|].
    assert (Z.log2 a < n) by (apply Z.log2_lt_pow2; lia). lia.
Qed.

Lemma lor_low_high a b n :
  0 <= n -> 0 <= a < 2 ^ n -> Z.lor a (b * 2 ^ n) = a + b * 2 ^ n.
Proof.
  intros Hn Ha. pose proof (Z.add_lor_land a (b * 2 ^ n)) as Hadd.
  rewrite land_low_high in Hadd by assumption. lia.
Qed.

Lemma u64_shiftl_byte b k :
  is_byte b -> 0 <= k <= 56 -> u64 (Z.shiftl b k) = b * 2 ^ k.
Proof.
  unfold is_byte, u64. intros Hb Hk. rewrite Z.shiftl_mul_pow2 by lia.
  apply Z.mod_small. split; [apply Z.mul_nonneg_nonneg; lia|].
  assert (2 ^ k <= 2 ^ 56) by (apply Z.pow_le_mono_r; lia).
  assert (0 < 2 ^ k) by (apply Z.pow_pos_nonneg; lia).
  change (2 ^ 64) with (256 * 2 ^ 56). nia.
Qed.

(** The shifts and ors of [binary.BigEndian.Uint64] read the first eight
    bytes as a big-endian integer. *)
Lemma BigEndian_Uint64_be_uint b :
  length b = 8%nat -> Forall is_byte b -> BigEndian_Uint64 b = be_uint b.
Proof.
  intros Hlen Hb.
  do 8 (destruct b as [|? b]; [discriminate|]). destruct b; [|discriminate].
  repeat match goal with H : Forall _ (_ :: _) |- _ => inversion_clear H end.
  unfold BigEndian_Uint64, be_uint. simpl nth. simpl fold_left.
  rewrite !u64_shiftl_byte by (auto; lia).
  unfold is_byte in *.
  rewrite (lor_low_high _ _ 8) by lia.
  rewrite (lor_low_high _ _ 16) by lia.
  rewrite (lor_low_high _ _ 24) by lia.
  rewrite (lor_low_high _ _ 32) by lia.
  rewrite (lor_low_high _ _ 40) by lia.
  rewrite (lor_low_high _ _ 48) by lia.
  rewrite (lor_low_high _ _ 56) by lia.
  lia.
Qed.

Lemma sha1_identity data :
  BigEndian_Uint64 (take 8 (SHA1.Sum data)) = be_uint (take 8 (SHA1.Sum data)).
Proof.
  apply BigEndian_Uint64_be_uint.
  - rewrite length_take, sha1_Sum_length. reflexivity.
  - apply Forall_take, sha1_Sum_range.
Qed.

(** ** NewMember *)

Lemma bytes_of_string_app s1 s2 :
  bytes_of_string (s1 +:+ s2) = bytes_of_string s1 ++ bytes_of_string s2.
Proof.
  unfold bytes_of_string. rewrite <- map_app. f_equal.
  induction s1 as [|c s1 IH]; simpl; [reflexivity|]. by rewrite IH.
Qed.

Lemma string_concat_cons x xs :
  String.concat "" (x :: xs) = x +:+ String.concat "" xs.
Proof.
  destruct xs as [|y ys]; simpl; [|reflexivity].
  induction x as [|c x IH]; [reflexivity|].
  change (String c x = String c (x +:+ "")). congruence.
Qed.

(** The loop that appends the bytes of each element builds the bytes of
    the concatenation. *)
Lemma append_loop_concat l acc :
  fold_left (fun b p => b ++ bytes_of_string p) l acc
  = acc ++ bytes_of_string (String.concat "" l).
Proof.
  revert acc. induction l as [|x xs IH]; intros acc.
  - simpl. by rewrite app_nil_r.
  - rewrite string_concat_cons, bytes_of_string_app. simpl fold_left.
    rewrite IH. by rewrite <- app_assoc.
Qed.

Lemma hash_input_bytes l salt now :
  (fold_left (fun b p => b ++ bytes_of_string p) l [] ++ bytes_of_string salt)
    ++ match now with
       | Some t => bytes_of_string (Sprintf_d (Unix t))
       | None => []
       end
  = bytes_of_string (spec_hash_input l salt now).
Proof.
  unfold spec_hash_input. rewrite append_loop_concat, !bytes_of_string_app.
  simpl. rewrite <- app_assoc. by destruct now.
Qed.

(** What [NewMember] returns, for every input: it never panics and never
    returns nil. *)
Lemma NewMember_returns name urls salt now :
  NewMember name urls salt now
  = Return (Some (mkMember (spec_identity (sort_Strings urls) salt now)
                    (mkRaftAttributes (Some (sort_Strings urls)))
                    (mkAttributes name None))).
Proof.
  unfold NewMember, spec_identity. cbn [StringSlice PeerURLs fmap option_fmap
    option_map slice_elems Member_RaftAttributes Member_Attributes ID].
  do 3 f_equal. rewrite sha1_identity. do 3 f_equal.
  rewrite <- hash_input_bytes. destruct now; [reflexivity|].
  by rewrite app_nil_r.
Qed.

(** The model runs on the members of the table of TestMemberTime
    (member_test.go): one endpoint, with and without a time (1984-12-23
    15:04:05 UTC) and a cluster name, and two endpoints in both orders. *)
Example NewMember_known_identities :
  let t := Some (mkTime 472662245) in
  let id r := match r with Return (Some m) => Some (ID m) | _ => None end in
  id (NewMember "mem1" ["http://10.0.0.8:2379"] "" None)
    = Some 14544069596553697298
  /\ id (NewMember "memfoo" ["http://10.0.0.8:2379"] "" None)
    = Some 14544069596553697298
  /\ id (NewMember "mem1" ["http://10.0.0.8:2379"] "" t)
    = Some 2448790162483548276
  /\ id (NewMember "mcm1" ["http://10.0.0.8:2379"] "etcd" t)
    = Some 6973882743191604649
  /\ id (NewMember "mem1" ["http://10.0.0.1:2379"; "http://10.0.0.2:2379"] "" None)
    = Some 16552244735972308939
  /\ id (NewMember "mem1" ["http://10.0.0.2:2379"; "http://10.0.0.1:2379"] "" None)
    = Some 16552244735972308939.
Proof. vm_compute. repeat split. Qed.

(** C1, as the specification states it, fails: on the endpoints
    [http://b:2; http://a:1] the record [NewMember] returns holds them in
    sorted order, not in the order of the caller. *)
Lemma NewMember_keeps_caller_order_counterexample :
  exists m,
    NewMember "m1" ["http://b:2"; "http://a:1"] "salt" None = Return (Some m)
    /\ PeerURLs m = Some ["http://a:1"; "http://b:2"]
    /\ PeerURLs m <> StringSlice ["http://b:2"; "http://a:1"].
Proof.
  eexists. split; [apply NewMember_returns|]. split.
  - vm_compute. reflexivity.
  - vm_compute. discriminate.
Qed.

(** C1, amended: [NewMember] sorts the slice of the new record in place
    before hashing, so the record it returns holds the sorted permutation
    of the endpoints of the caller (their order when they come sorted);
    the name is the one given and the client endpoints are nil. *)
Theorem NewMember_persists_sorted_endpoints name urls salt now :
  exists m l,
    NewMember name urls salt now = Return (Some m)
    /\ PeerURLs m = Some l
    /\ Sorted String.le l /\ l ≡ₚ urls
    /\ (Sorted String.le urls -> l = urls)
    /\ Name m = name /\ ClientURLs m = None.
Proof.
  eexists _, _. split; [apply NewMember_returns|]. simpl.
  repeat split.
  - apply sort_Strings_Sorted.
  - apply sort_Strings_Permutation.
  - apply sort_Strings_sorted_id.
Qed.

(** C3, as the specification states it, fails: with no endpoint at all
    [NewMember] returns a record, whose identity is the digest of the
    salt alone. *)
Lemma NewMember_empty_endpoints_counterexample :
  NewMember "m1" [] "" None
  = Return (Some (mkMember 0xda39a3ee5e6b4b0d (mkRaftAttributes (Some []))
                    (mkAttributes "m1" None)))
  /\ ~ rejected (NewMember "m1" [] "" None).
Proof.
  split; [vm_compute; reflexivity|].
  rewrite NewMember_returns. simpl. tauto.
Qed.

(** C3, amended: [NewMember] has no error result and no check of its
    endpoints; with an empty sequence it returns a record with an empty,
    non-nil sequence, whose identity is derived from the salt and the
    timestamp alone. *)
Theorem NewMember_empty_endpoints name salt now :
  exists m,
    NewMember name [] salt now = Return (Some m)
    /\ ~ rejected (NewMember name [] salt now)
    /\ ID m = spec_identity [] salt now
    /\ PeerURLs m = Some [] /\ Name m = name /\ ClientURLs m = None.
Proof.
  eexists. split; [apply NewMember_returns|].
  rewrite NewMember_returns. simpl. tauto.
Qed.

(** C4: for every non-empty sequence of endpoints, salt and optional
    creation time, the identity is the first 8 bytes, read as a
    big-endian unsigned 64-bit integer, of the SHA-1 digest of the
    lexicographically sorted endpoints concatenated, then the salt, then
    the decimal Unix timestamp when the time is given. [sorted] is any
    sorted arrangement of the endpoints. *)
Theorem NewMember_identity_is_digest name urls salt now sorted :
  urls <> [] -> Sorted String.le sorted -> sorted ≡ₚ urls ->
  exists m,
    NewMember name urls salt now = Return (Some m)
    /\ ID m = spec_identity sorted salt now.
Proof.
  intros _ Hs Hp. eexists. split; [apply NewMember_returns|]. simpl.
  by rewrite (sort_Strings_unique urls sorted).
Qed.

Lemma NewMember_identity_is_digest_witness :
  exists m,
    NewMember "m1" ["http://b:2"; "http://a:1"] "salt"
      (Some (mkTime 1420070400)) = Return (Some m)
    /\ ID m = spec_identity ["http://a:1"; "http://b:2"] "salt"
                (Some (mkTime 1420070400)).
Proof.
  apply NewMember_identity_is_digest.
  - discriminate.
  - repeat constructor.
  - apply perm_swap.
Defined.

(** C5: for non-empty sequences of endpoints of which one is a
    permutation of the other, and the same name, salt and optional time,
    [NewMember] derives the same identity. *)
Theorem NewMember_identity_permutation name E1 E2 salt now :
  E1 <> [] -> E2 ≡ₚ E1 ->
  exists m1 m2,
    NewMember name E1 salt now = Return (Some m1)
    /\ NewMember name E2 salt now = Return (Some m2)
    /\ ID m1 = ID m2.
Proof.
  intros _ Hp. eexists _, _.
  split; [apply NewMember_returns|]. split; [apply NewMember_returns|].
  simpl. by rewrite (sort_Strings_perm_eq E2 E1).
Qed.

Lemma NewMember_identity_permutation_witness :
  exists m1 m2,
    NewMember "m1" ["http://b:2"; "http://a:1"; "http://c:3"] "salt" None
      = Return (Some m1)
    /\ NewMember "m1" ["http://c:3"; "http://b:2"; "http://a:1"] "salt" None
      = Return (Some m2)
    /\ ID m1 = ID m2.
Proof.
  apply NewMember_identity_permutation.
  - discriminate.
  - apply (Permutation_cons_append ["http://b:2"; "http://a:1"] "http://c:3").
Defined.

(** ** PickPeerURL *)

Lemma index_lookup {A} (s : option (list A)) (i : Z) :
  0 <= i < Z.of_nat (slice_len s) ->
  exists x, index s i = Return x /\ slice_elems s !! Z.to_nat i = Some x.
Proof.
  intros Hi. unfold index.
  destruct (Z.ltb_spec i 0); [lia|].
  destruct (Z.leb_spec (Z.of_nat (slice_len s)) i); [lia|]. simpl.
  destruct (slice_elems s !! Z.to_nat i) as [x|] eqn:Hx; [eauto|].
  apply lookup_ge_None in Hx. destruct s; simpl in *; lia.
Qed.

(** C9: [PickPeerURL] panics for every record whose sequence of routing
    endpoints is empty; for every record with a non-empty sequence it
    returns, without panic, an element of the sequence: the one at the
    index [rand.Intn] draws, a number in [0, len). Each position is the
    pick of exactly the draws of its index, so that the pick is as
    uniform over the positions as the draw is over [0, len). *)
Theorem PickPeerURL_panics_iff_empty `{RandSource} (m : Member) (g : rng) :
  let n := Z.of_nat (slice_len (PeerURLs m)) in
  (slice_len (PeerURLs m) = 0%nat ->
     PickPeerURL m g
     = Panic (LogPanicf "member should always have some peer url" []))
  /\ (slice_len (PeerURLs m) <> 0%nat ->
      0 <= (rand_Intn g n).1 < n ->
      exists u,
        PickPeerURL m g = Return (u, (rand_Intn g n).2)
        /\ slice_elems (PeerURLs m) !! Z.to_nat (rand_Intn g n).1 = Some u
        /\ u ∈ slice_elems (PeerURLs m)).
Proof.
  intros n. unfold PickPeerURL. split.
  - intros Hlen. by rewrite Hlen.
  - intros Hlen Hrand.
    destruct (Nat.eqb_spec (slice_len (PeerURLs m)) 0); [done|].
    fold n. destruct (rand_Intn g n) as [i g']. simpl in *.
    destruct (index_lookup (PeerURLs m) i) as (u & -> & Hu); [done|].
    exists u. repeat split; [done|]. by eapply list_elem_of_lookup_2.
Qed.

Lemma PickPeerURL_panics_iff_empty_witness :
  let m := mkMember 1 (mkRaftAttributes (Some ["http://a:1"; "http://b:2"]))
             zero_Attributes in
  exists u,
    PickPeerURL (H := demo_RandSource) m 5 = Return (u, 6)
    /\ u = "http://b:2".
Proof.
  intros m.
  destruct (PickPeerURL_panics_iff_empty (H := demo_RandSource) m 5) as [_ Hne].
  destruct Hne as (u & Hu & Hlook & _).
  - discriminate.
  - vm_compute. split; [discriminate|reflexivity].
  - exists u. split; [exact Hu|]. vm_compute in Hlook. congruence.
Defined.

(** ** getVersion *)

Section GetVersion.
Context `{Externals}.

(** One iteration of the loop: a parsed response returns, a failure goes
    on to the next endpoint; only a failure of the transport is left in
    [err]. *)
Lemma getVersion_loop_step cc k u urls err :
  getVersion_loop cc k (u :: urls) err
  = match probe cc k u with
    | Parsed v => (v, None)
    | TransportFailure e => getVersion_loop cc (S k) urls (Some e)
    | BodyReadFailure _ | ParseFailure _ => getVersion_loop cc (S k) urls None
    end.
Proof.
  unfold probe. simpl.
  destruct (cc k (u +:+ "/version")) as [resp|e]; [|reflexivity].
  destruct (ReadAll_Body resp) as [b|e]; [|reflexivity].
  by destruct (Unmarshal_Versions b (mkVersions "")) as [vers [e|]].
Qed.

(** The first endpoint that answers with a version decides. *)
Lemma getVersion_loop_first_parsed cc urls1 u urls2 v : forall k err,
  Forall failed (sweep cc k urls1) ->
  probe cc (k + length urls1) u = Parsed v ->
  getVersion_loop cc k (urls1 ++ u :: urls2) err = (v, None).
Proof.
  induction urls1 as [|u1 urls1 IH]; intros k err Hfail Hu.
  - simpl app. rewrite getVersion_loop_step.
    rewrite Nat.add_0_r in Hu. by rewrite Hu.
  - simpl app. rewrite getVersion_loop_step.
    simpl in Hfail. inversion_clear Hfail as [|? ? [e He] Hrest].
    replace (k + length (u1 :: urls1))%nat
      with (S k + length urls1)%nat in Hu by (simpl; lia).
    destruct (probe cc k u1); try discriminate; by apply IH.
Qed.

(** When every endpoint fails, what is returned is the [err] the last
    request left: its error when the transport failed, nil when the
    transport succeeded and the body could not be read or parsed. *)
Lemma getVersion_loop_all_failed cc urls u : forall k err,
  Forall failed (sweep cc k (urls ++ [u])) ->
  getVersion_loop cc k (urls ++ [u]) err
  = ("", match probe cc (k + length urls) u with
         | TransportFailure e => Some e
         | _ => None
         end).
Proof.
  induction urls as [|u1 urls IH]; intros k err Hfail.
  - simpl app. rewrite getVersion_loop_step. rewrite Nat.add_0_r.
    simpl in Hfail. inversion_clear Hfail as [|? ? [e He] _].
    by destruct (probe cc k u).
  - simpl app. rewrite getVersion_loop_step.
    simpl in Hfail. inversion_clear Hfail as [|? ? [e He] Hrest].
    replace (k + length (u1 :: urls))%nat
      with (S k + length urls)%nat by (simpl; lia).
    destruct (probe cc k u1); try discriminate; by apply IH.
Qed.

(** The part of C2 about the first success holds. *)
Lemma getVersion_first_parsed (m : Member) tr urls1 u urls2 v :
  slice_elems (PeerURLs m) = urls1 ++ u :: urls2 ->
  Forall failed (sweep tr 0 urls1) ->
  probe tr (length urls1) u = Parsed v ->
  getVersion m tr = (v, None).
Proof.
  intros Hm Hfail Hu. unfold getVersion. rewrite Hm.
  by apply getVersion_loop_first_parsed.
Qed.

(** The part of C2 about the last failure holds when the last endpoint
    fails in the transport. *)
Lemma getVersion_last_transport_failure (m : Member) tr urls u e :
  slice_elems (PeerURLs m) = urls ++ [u] ->
  Forall failed (sweep tr 0 (urls ++ [u])) ->
  probe tr (length urls) u = TransportFailure e ->
  getVersion m tr = ("", Some e).
Proof.
  intros Hm Hfail Hu. unfold getVersion. rewrite Hm.
  rewrite getVersion_loop_all_failed by done. simpl. by rewrite Hu.
Qed.

(** It fails when the last endpoint answers and its body cannot be read
    or parsed: no error is returned at all. *)
Lemma getVersion_last_failure_dropped (m : Member) tr urls u :
  slice_elems (PeerURLs m) = urls ++ [u] ->
  Forall failed (sweep tr 0 (urls ++ [u])) ->
  (forall e, probe tr (length urls) u <> TransportFailure e) ->
  getVersion m tr = ("", None).
Proof.
  intros Hm Hfail Hu. unfold getVersion. rewrite Hm.
  rewrite getVersion_loop_all_failed by done. simpl.
  destruct (probe tr (length urls) u); try done. by destruct (Hu e).
Qed.

End GetVersion.

(** C2, the code at the failing input: the first endpoint is unreachable,
    the second answers with a body that does not parse as a version
    descriptor. Every endpoint has failed and the failure of the last is
    the parse error [e], yet [getVersion] returns the empty string and a
    nil error. *)
Theorem getVersion_last_parse_failure_returns_nil `{Externals}
    (body : string) (v : Versions) (e : error) :
  Unmarshal_Versions body (mkVersions "") = (v, Some e) ->
  let m := mkMember 1 (mkRaftAttributes (Some ["http://down:1"; "http://up:2"]))
             zero_Attributes in
  let tr : Transport := fun k url =>
    if String.eqb url "http://up:2/version"
    then inl (mkResponse (inl body))
    else inr (ExternalError "connection refused") in
  sweep tr 0 (slice_elems (PeerURLs m))
  = [TransportFailure (ExternalError "connection refused"); ParseFailure e]
  /\ getVersion m tr = ("", None).
Proof.
  intros Hparse m tr.
  assert (Hsweep : sweep tr 0 (slice_elems (PeerURLs m))
                   = [TransportFailure (ExternalError "connection refused");
                      ParseFailure e]).
  { cbn [sweep slice_elems PeerURLs Member_RaftAttributes m].
    unfold probe, tr. simpl. by rewrite Hparse. }
  split; [exact Hsweep|].
  apply (getVersion_last_failure_dropped m tr ["http://down:1"] "http://up:2").
  - reflexivity.
  - change (["http://down:1"] ++ ["http://up:2"])
      with (slice_elems (PeerURLs m)).
    rewrite Hsweep. repeat constructor; by eexists.
  - intros e'. unfold probe, tr. simpl. by rewrite Hparse.
Qed.

Lemma getVersion_last_parse_failure_returns_nil_witness :
  getVersion (H := demo_Externals)
    (mkMember 1 (mkRaftAttributes (Some ["http://down:1"; "http://up:2"]))
       zero_Attributes)
    (fun k url =>
       if String.eqb url "http://up:2/version"
       then inl (mkResponse (inl "not a version"))
       else inr (ExternalError "connection refused"))
  = ("", None).
Proof.
  apply (getVersion_last_parse_failure_returns_nil (H := demo_Externals)
           "not a version" (mkVersions "") (ExternalError "invalid character")).
  reflexivity.
Defined.

(** ** nodeToMember *)

Section NodeToMember.
Context `{Externals}.
Variables raftAttrKey attrKey : string.

Local Abbreviation loop := (nodeToMember_loop raftAttrKey attrKey).
Local Abbreviation known := (recognized raftAttrKey attrKey).

Lemma unknown_key_test nn :
  bool_decide (Key nn ≠ raftAttrKey) && bool_decide (Key nn ≠ attrKey)
  = bool_decide (¬ known nn).
Proof.
  unfold recognized.
  repeat case_bool_decide; simpl; try reflexivity; exfalso; tauto.
Qed.

Lemma blobs_cons k nn nodes :
  blobs k (nn :: nodes)
  = if decide (Key nn = k) then Value nn :: blobs k nodes else blobs k nodes.
Proof. unfold blobs. rewrite filter_cons. by case_decide. Qed.

Lemma blobs_app k nodes1 nodes2 :
  blobs k (nodes1 ++ nodes2) = blobs k nodes1 ++ blobs k nodes2.
Proof. unfold blobs. by rewrite filter_app, fmap_app. Qed.

Lemma elem_of_blobs nn nodes : nn ∈ nodes -> Value nn ∈ blobs (Key nn) nodes.
Proof.
  intros Hin. unfold blobs. apply list_elem_of_fmap. exists nn. split; [done|].
  by apply list_elem_of_filter.
Qed.

Lemma attrs_after_cons k nn nodes before :
  valued nn ->
  attrs_after k (nn :: nodes) before
  = attrs_after k nodes
      (if decide (Key nn = k) then Value nn else before).
Proof.
  intros [v Hv]. unfold attrs_after. rewrite blobs_cons.
  case_decide; [|reflexivity].
  rewrite Hv, last_cons. by destruct (last (blobs k nodes)).
Qed.

(** The loop runs through children that are recognized and carry a
    value. *)
Lemma loop_through nodes1 : forall nodes2 attrs,
  Forall known nodes1 -> Forall valued nodes1 ->
  exists attrs',
    loop (nodes1 ++ nodes2) attrs = loop nodes2 attrs'
    /\ forall k, attrs' !! k = attrs_after k nodes1 (attrs !! k).
Proof.
  induction nodes1 as [|nn nodes1 IH]; intros nodes2 attrs Hk Hv.
  - exists attrs. split; [reflexivity|]. intros k. reflexivity.
  - inversion_clear Hk as [|? ? Hnn Hk']. inversion_clear Hv as [|? ? Hvn Hv'].
    destruct (IH nodes2 (<[Key nn := default "" (Value nn)]> attrs) Hk' Hv')
      as (attrs' & Hloop & Hlook).
    exists attrs'. split.
    + simpl. rewrite unknown_key_test, bool_decide_false by tauto.
      destruct Hvn as [v Hvn]. rewrite Hvn in *. exact Hloop.
    + intros k. rewrite Hlook, attrs_after_cons by done.
      f_equal. rewrite lookup_insert. destruct Hvn as [v ->].
      by case_decide.
Qed.

Lemma loop_done nodes :
  Forall known nodes -> Forall valued nodes ->
  exists attrs,
    loop nodes ∅ = Return (inl attrs)
    /\ forall k, attrs !! k = attrs_after k nodes None.
Proof.
  intros Hk Hv.
  destruct (loop_through nodes [] ∅ Hk Hv) as (attrs & Hloop & Hlook).
  rewrite app_nil_r in Hloop. exists attrs. split; [exact Hloop|].
  intros k. by rewrite Hlook, lookup_empty.
Qed.

Lemma loop_unknown nodes1 nn nodes2 attrs :
  Forall known nodes1 -> Forall valued nodes1 -> ¬ known nn ->
  loop (nodes1 ++ nn :: nodes2) attrs
  = Return (inr (Errorf "unknown key %q" [ArgString (Key nn)])).
Proof.
  intros Hk Hv Hnn.
  destruct (loop_through nodes1 (nn :: nodes2) attrs Hk Hv) as (? & -> & _).
  simpl. by rewrite unknown_key_test, bool_decide_true.
Qed.

Lemma loop_nil_value nodes1 : forall nn nodes2 attrs,
  Forall known nodes1 -> known nn -> Value nn = None ->
  loop (nodes1 ++ nn :: nodes2) attrs = Panic NilDereference.
Proof.
  induction nodes1 as [|n1 nodes1 IH]; intros nn nodes2 attrs Hk Hnn Hnil.
  - simpl. rewrite unknown_key_test, bool_decide_false by tauto.
    by rewrite Hnil.
  - inversion_clear Hk as [|? ? Hn1 Hk']. simpl.
    rewrite unknown_key_test, bool_decide_false by tauto.
    destruct (Value n1); [by apply IH|reflexivity].
Qed.

(** The first child that is not recognized, when there is one. *)
Lemma first_unknown nodes :
  ¬ Forall known nodes ->
  exists nodes1 nn nodes2,
    nodes = nodes1 ++ nn :: nodes2 /\ Forall known nodes1 /\ ¬ known nn.
Proof.
  induction nodes as [|n1 nodes IH]; intros Hnot.
  - destruct Hnot. constructor.
  - destruct (decide (known n1)) as [Hn1|Hn1].
    + destruct IH as (nodes1 & nn & nodes2 & -> & Hk & Hnn).
      { intros Hall. apply Hnot. by constructor. }
      exists (n1 :: nodes1), nn, nodes2. repeat split; [by constructor|done].
    + exists [], n1, nodes. repeat split; [constructor|done].
Qed.

End NodeToMember.

Section NodeToMemberResults.
Context `{Externals}.
Variable n : NodeExtern.
Variable id : ID_t.
Hypothesis identity_parses : IDFromString (path_Base (Key n)) = inl id.

Local Abbreviation raftAttrKey := (path_Join (Key n) raftAttributesSuffix).
Local Abbreviation attrKey := (path_Join (Key n) attributesSuffix).
Local Abbreviation known := (recognized raftAttrKey attrKey).

Lemma nodeToMember_after_loop :
  nodeToMember n
  = r ← nodeToMember_loop raftAttrKey attrKey (Nodes n) ∅; after_loop n id r.
Proof.
  unfold nodeToMember, mustParseMemberIDFromKey. rewrite identity_parses.
  reflexivity.
Qed.

Lemma nodeToMember_unknown_key nodes1 nn nodes2 :
  Nodes n = nodes1 ++ nn :: nodes2 ->
  Forall known nodes1 -> Forall valued nodes1 -> ¬ known nn ->
  nodeToMember n
  = Return (None, Some (Errorf "unknown key %q" [ArgString (Key nn)])).
Proof.
  intros Hn Hk Hv Hnn. rewrite nodeToMember_after_loop, Hn.
  by rewrite loop_unknown.
Qed.

Lemma nodeToMember_nil_value nodes1 nn nodes2 :
  Nodes n = nodes1 ++ nn :: nodes2 ->
  Forall known nodes1 -> known nn -> Value nn = None ->
  nodeToMember n = Panic NilDereference.
Proof.
  intros Hn Hk Hnn Hnil. rewrite nodeToMember_after_loop, Hn.
  by rewrite loop_nil_value.
Qed.

(** When every child is recognized and carries a value, the blobs the
    rest of the function reads are those of the last child of each
    key. *)
Lemma nodeToMember_all_known :
  Forall known (Nodes n) -> Forall valued (Nodes n) ->
  exists attrs,
    nodeToMember n = after_loop n id (inl attrs)
    /\ forall k, attrs !! k = attrs_after k (Nodes n) None.
Proof.
  intros Hk Hv.
  destruct (loop_done raftAttrKey attrKey (Nodes n) Hk Hv)
    as (attrs & Hloop & Hlook).
  exists attrs. split; [|exact Hlook].
  by rewrite nodeToMember_after_loop, Hloop.
Qed.

End NodeToMemberResults.

Lemma known_valued `{Externals} rk ak (nodes : list NodeExtern) :
  Forall (recognized rk ak) nodes ->
  Forall is_Some (blobs rk nodes) -> Forall is_Some (blobs ak nodes) ->
  Forall valued nodes.
Proof.
  intros Hk Hr Ha. apply Forall_forall. intros nn Hin.
  pose proof (elem_of_blobs nn nodes Hin) as Hblob.
  destruct (proj1 (Forall_forall _ _) Hk nn Hin) as [Heq|Heq];
    rewrite Heq in Hblob.
  - exact (proj1 (Forall_forall _ _) Hr _ Hblob).
  - exact (proj1 (Forall_forall _ _) Ha _ Hblob).
Qed.

(** C6: for a node (its identity segment parsed as [id]) whose children
    all carry recognized keys and whose raft-attributes blob is present
    and deserializes, (1) if the attributes blob is present and fails to
    deserialize, [nodeToMember] returns the error together with the
    record, whose identity and routing endpoints are the parsed ones;
    (2) if the attributes blob is absent, it returns the record without
    error, with empty name and nil client endpoints. *)
Theorem nodeToMember_attributes_blob_optional `{Externals}
    (n : NodeExtern) (id : ID_t) (rdata : string) (ra : RaftAttributes) :
  let raftAttrKey := path_Join (Key n) raftAttributesSuffix in
  let attrKey := path_Join (Key n) attributesSuffix in
  IDFromString (path_Base (Key n)) = inl id ->
  Forall (recognized raftAttrKey attrKey) (Nodes n) ->
  blobs raftAttrKey (Nodes n) = [Some rdata] ->
  Unmarshal_RaftAttributes rdata zero_RaftAttributes = (ra, None) ->
  (forall adata a err,
     blobs attrKey (Nodes n) = [Some adata] ->
     Unmarshal_Attributes adata zero_Attributes = (a, Some err) ->
     exists m,
       nodeToMember n
       = Return (Some m,
                 Some (Errorf "unmarshal attributes error: %v" [ArgError err]))
       /\ ID m = id /\ PeerURLs m = PeerURLs ra)
  /\ (blobs attrKey (Nodes n) = [] ->
      exists m,
        nodeToMember n = Return (Some m, None)
        /\ ID m = id /\ PeerURLs m = PeerURLs ra
        /\ Name m = "" /\ ClientURLs m = None).
Proof.
  intros rk ak Hid Hk Hraft Hun. split.
  - intros adata a err Hattr Hfail.
    destruct (nodeToMember_all_known n id Hid Hk) as (attrs & -> & Hlook).
    { apply (known_valued rk ak); [done|fold rk|fold ak].
      - rewrite Hraft. repeat constructor. by eexists.
      - rewrite Hattr. repeat constructor. by eexists. }
    unfold after_loop. rewrite !Hlook. unfold attrs_after. fold rk ak.
    rewrite Hraft, Hattr. simpl. rewrite Hun, Hfail. by eexists.
  - intros Hattr.
    destruct (nodeToMember_all_known n id Hid Hk) as (attrs & -> & Hlook).
    { apply (known_valued rk ak); [done|fold rk|fold ak].
      - rewrite Hraft. repeat constructor. by eexists.
      - rewrite Hattr. constructor. }
    unfold after_loop. rewrite !Hlook. unfold attrs_after. fold rk ak.
    rewrite Hraft, Hattr. simpl. rewrite Hun. by eexists.
Qed.

Lemma nodeToMember_attributes_blob_optional_witness :
  let n := mkNodeExtern "members/1f" None
             [mkNodeExtern "members/1f/attributes" (Some "oops") [];
              mkNodeExtern "members/1f/raftAttributes" (Some "{http://a:1") []] in
  exists m,
    nodeToMember (H := demo_Externals) n
    = Return (Some m,
              Some (Errorf "unmarshal attributes error: %v"
                      [ArgError (ExternalError "invalid character")]))
    /\ ID m = 31 /\ PeerURLs m = Some ["http://a:1"].
Proof.
  intros n.
  destruct (nodeToMember_attributes_blob_optional (H := demo_Externals)
              n 31 "{http://a:1" (mkRaftAttributes (Some ["http://a:1"])))
    as [Hpresent _].
  - reflexivity.
  - constructor; [right; reflexivity|].
    constructor; [left; reflexivity|]. constructor.
  - reflexivity.
  - reflexivity.
  - apply (Hpresent "oops" zero_Attributes (ExternalError "invalid character"));
      reflexivity.
Defined.

Lemma blobs_valued k (nodes : list NodeExtern) :
  Forall valued nodes -> Forall is_Some (blobs k nodes).
Proof.
  intros Hv. unfold blobs. apply Forall_fmap.
  apply Forall_forall. intros nn Hin%list_elem_of_filter.
  rewrite Forall_forall in Hv. apply Hv. tauto.
Qed.

Lemma known_children_valued rk ak (nodes : list NodeExtern) :
  Forall (fun nn => recognized rk ak nn -> valued nn) nodes ->
  Forall (recognized rk ak) nodes -> Forall valued nodes.
Proof.
  intros Himp Hk. apply Forall_forall. intros nn Hin.
  rewrite Forall_forall in Himp. apply (Himp nn Hin).
  rewrite Forall_forall in Hk. by apply Hk.
Qed.

(** With every child recognized and carrying a value, the blob of the
    raft attributes decides between the two errors without record and a
    result with a record. *)
Lemma nodeToMember_known_cases `{Externals} (n : NodeExtern) (id : ID_t) :
  let rk := path_Join (Key n) raftAttributesSuffix in
  IDFromString (path_Base (Key n)) = inl id ->
  Forall (recognized rk (path_Join (Key n) attributesSuffix)) (Nodes n) ->
  Forall valued (Nodes n) ->
  match last (blobs rk (Nodes n)) with
  | None =>
      blobs rk (Nodes n) = []
      /\ nodeToMember n
         = Return (None, Some (Errorf "raftAttributes key doesn't exist" []))
  | Some None => False
  | Some (Some data) =>
      match Unmarshal_RaftAttributes data zero_RaftAttributes with
      | (_, Some err) =>
          nodeToMember n
          = Return (None,
                    Some (Errorf "unmarshal raftAttributes error: %v"
                            [ArgError err]))
      | (_, None) => exists m e, nodeToMember n = Return (Some m, e)
      end
  end.
Proof.
  intros rk Hid Hk Hv.
  destruct (nodeToMember_all_known n id Hid Hk Hv) as (attrs & -> & Hlook).
  unfold after_loop. rewrite !Hlook. unfold attrs_after. fold rk.
  destruct (last (blobs rk (Nodes n))) as [[data|]|] eqn:Hlast.
  - destruct (Unmarshal_RaftAttributes data zero_RaftAttributes) as [ra [err|]];
      [reflexivity|].
    destruct (last (blobs (path_Join (Key n) attributesSuffix) (Nodes n)))
      as [[adata|]|]; [|eexists _, _; reflexivity..].
    destruct (Unmarshal_Attributes adata zero_Attributes) as [a [err|]];
      eexists _, _; reflexivity.
  - apply last_Some in Hlast as [l Hl].
    pose proof (blobs_valued rk (Nodes n) Hv) as Hsome.
    rewrite Hl, Forall_app in Hsome. destruct Hsome as [_ Hsome].
    inversion_clear Hsome as [|? ? [? ?] _]. discriminate.
  - by apply last_None in Hlast.
Qed.

(** C7, as the specification states it, fails: the only child of this
    node has the attributes key and no value. The identity segment is
    well formed and the raft-attributes blob is absent, yet
    [nodeToMember] does not return the error of the missing raft
    attributes: it panics on the nil value. *)
Lemma nodeToMember_error_iff_counterexample :
  let n := mkNodeExtern "members/1f" None
             [mkNodeExtern "members/1f/attributes" None []] in
  IDFromString (Externals := demo_Externals)
    (path_Base (Externals := demo_Externals) (Key n)) = inl 31
  /\ blobs (path_Join (Externals := demo_Externals) (Key n) raftAttributesSuffix)
       (Nodes n) = []
  /\ nodeToMember (H := demo_Externals) n = Panic NilDereference.
Proof. repeat split. Qed.

(** C7, amended: for every node with a well-formed identity segment
    whose children with a recognized key all carry a value,
    [nodeToMember] returns, and it returns an error and no record exactly
    when some child key differs from both the raft-attributes key and the
    attributes key, or the raft-attributes blob is absent, or it is
    present and fails to deserialize. The error names the first
    unrecognized key in the first case; with all keys recognized, it
    tells the missing raft attributes in the second and carries the
    cause in the third. *)
Theorem nodeToMember_error_without_record `{Externals}
    (n : NodeExtern) (id : ID_t) :
  let rk := path_Join (Key n) raftAttributesSuffix in
  let ak := path_Join (Key n) attributesSuffix in
  IDFromString (path_Base (Key n)) = inl id ->
  Forall (fun nn => recognized rk ak nn -> valued nn) (Nodes n) ->
  exists r,
    nodeToMember n = Return r
    /\ (r.1 = None /\ is_Some r.2 <->
        Exists (fun nn => ¬ recognized rk ak nn) (Nodes n)
        \/ blobs rk (Nodes n) = []
        \/ exists data v err,
             last (blobs rk (Nodes n)) = Some (Some data)
             /\ Unmarshal_RaftAttributes data zero_RaftAttributes
                = (v, Some err))
    /\ (forall nodes1 nn nodes2,
          Nodes n = nodes1 ++ nn :: nodes2 ->
          Forall (recognized rk ak) nodes1 -> ¬ recognized rk ak nn ->
          r = (None, Some (Errorf "unknown key %q" [ArgString (Key nn)])))
    /\ (Forall (recognized rk ak) (Nodes n) -> blobs rk (Nodes n) = [] ->
        r = (None, Some (Errorf "raftAttributes key doesn't exist" [])))
    /\ (Forall (recognized rk ak) (Nodes n) ->
        forall data v err,
          last (blobs rk (Nodes n)) = Some (Some data) ->
          Unmarshal_RaftAttributes data zero_RaftAttributes = (v, Some err) ->
          r = (None,
               Some (Errorf "unmarshal raftAttributes error: %v"
                       [ArgError err]))).
Proof.
  intros rk ak Hid Hval.
  assert (Hunknown : forall nodes1 nn nodes2,
            Nodes n = nodes1 ++ nn :: nodes2 ->
            Forall (recognized rk ak) nodes1 -> ¬ recognized rk ak nn ->
            nodeToMember n
            = Return (None, Some (Errorf "unknown key %q" [ArgString (Key nn)]))).
  { intros nodes1 nn nodes2 Hn Hk1 Hnn.
    apply (nodeToMember_unknown_key n id Hid nodes1 nn nodes2); try done.
    apply (known_children_valued rk ak); [|done].
    rewrite Hn, Forall_app in Hval. tauto. }
  destruct (decide (Forall (recognized rk ak) (Nodes n))) as [Hk|Hnk].
  - pose proof (known_children_valued rk ak _ Hval Hk) as Hv.
    pose proof (nodeToMember_known_cases n id Hid Hk Hv) as Hcases.
    fold rk in Hcases.
    assert (Hno : ¬ Exists (fun nn => ¬ recognized rk ak nn) (Nodes n)).
    { intros Hex%Exists_exists. destruct Hex as (nn & Hin & Hnn).
      rewrite Forall_forall in Hk. by apply Hnn, Hk. }
    destruct (last (blobs rk (Nodes n))) as [[data|]|] eqn:Hlast; [|done|].
    + destruct (Unmarshal_RaftAttributes data zero_RaftAttributes)
        as [ra [err|]] eqn:Hun.
      * eexists. split; [exact Hcases|]. simpl.
        split; [|split; [|split]].
        -- split; [|by eauto]. intros _. right. right. by eexists _, _, _.
        -- intros nodes1 nn nodes2 Hn Hk1 Hnn.
           rewrite (Hunknown _ _ _ Hn Hk1 Hnn) in Hcases. congruence.
        -- intros _ Hnil. rewrite Hnil in Hlast. discriminate.
        -- intros _ data' v err' Hd Hun'. congruence.
      * destruct Hcases as (m & e & Hm). eexists. split; [exact Hm|].
        simpl. split; [|split; [|split]].
        -- split; [intros [? _]; discriminate|].
           intros [?|[Hnil|(data' & v & err' & Hd & Hun')]];
             [done| rewrite Hnil in Hlast; discriminate | congruence].
        -- intros nodes1 nn nodes2 Hn Hk1 Hnn.
           rewrite (Hunknown _ _ _ Hn Hk1 Hnn) in Hm. congruence.
        -- intros _ Hnil. rewrite Hnil in Hlast. discriminate.
        -- intros _ data' v err' Hd Hun'. congruence.
    + destruct Hcases as [Hnil Hm]. eexists. split; [exact Hm|].
      simpl. split; [|split; [|split]].
      * split; [|by eauto]. intros _. by right; left.
      * intros nodes1 nn nodes2 Hn Hk1 Hnn.
        rewrite (Hunknown _ _ _ Hn Hk1 Hnn) in Hm. congruence.
      * done.
      * intros _ data' v err' Hd. discriminate.
  - destruct (first_unknown rk ak (Nodes n) Hnk)
      as (nodes1 & nn & nodes2 & Hn & Hk1 & Hnn).
    pose proof (Hunknown _ _ _ Hn Hk1 Hnn) as Hm.
    eexists. split; [exact Hm|]. simpl. split; [|split; [|split]].
    + split; [|by eauto]. intros _. left. apply Exists_exists.
      exists nn. split; [|done].
      rewrite Hn. set_solver.
    + intros nodes1' nn' nodes2' Hn' Hk1' Hnn'.
      rewrite (Hunknown _ _ _ Hn' Hk1' Hnn') in Hm. congruence.
    + done.
    + done.
Qed.

Lemma nodeToMember_error_without_record_witness :
  let n := mkNodeExtern "members/1f" None
             [mkNodeExtern "members/1f/attributes" (Some "{m1") [];
              mkNodeExtern "members/1f/raftAttributes" (Some "oops") []] in
  exists r,
    nodeToMember (H := demo_Externals) n = Return r
    /\ r = (None,
            Some (Errorf "unmarshal raftAttributes error: %v"
                    [ArgError (ExternalError "invalid character")])).
Proof.
  intros n.
  destruct (nodeToMember_error_without_record (H := demo_Externals) n 31)
    as (r & Hr & _ & _ & _ & Hbad).
  - reflexivity.
  - constructor; [intros _; by eexists|].
    constructor; [intros _; by eexists|]. constructor.
  - exists r. split; [exact Hr|].
    apply (Hbad ltac:(constructor; [right; reflexivity|];
                      constructor; [left; reflexivity|]; constructor)
             "oops" zero_RaftAttributes (ExternalError "invalid character"));
      reflexivity.
Defined.

(** C10, as the specification states it, fails: the second child of this
    node has the attributes key and no value, but the first child has an
    unrecognized key (the children are sorted by key), and
    [nodeToMember] returns the decode error of the unknown key; it does
    not crash. *)
Lemma nodeToMember_nil_value_counterexample :
  let n := mkNodeExtern "members/1f" None
             [mkNodeExtern "members/1f/aaa" (Some "x") [];
              mkNodeExtern "members/1f/attributes" None []] in
  (exists nn, nn ∈ Nodes n
     /\ Key nn = path_Join (Externals := demo_Externals) (Key n) attributesSuffix
     /\ Value nn = None)
  /\ nodeToMember (H := demo_Externals) n
     = Return (None,
               Some (Errorf "unknown key %q" [ArgString "members/1f/aaa"])).
Proof.
  intros n. split; [|reflexivity].
  exists (mkNodeExtern "members/1f/attributes" None []).
  split; [set_solver|]. split; reflexivity.
Qed.

(** C10, amended: for every node with a well-formed identity segment
    that has a child with the raft-attributes key or the attributes key
    and no value, and no child with an unrecognized key before it,
    [nodeToMember] panics with a nil dereference; it returns no decode
    error. *)
Theorem nodeToMember_nil_value_panics `{Externals}
    (n : NodeExtern) (id : ID_t) (nodes1 : list NodeExtern) (nn : NodeExtern)
    (nodes2 : list NodeExtern) :
  let rk := path_Join (Key n) raftAttributesSuffix in
  let ak := path_Join (Key n) attributesSuffix in
  IDFromString (path_Base (Key n)) = inl id ->
  Nodes n = nodes1 ++ nn :: nodes2 ->
  recognized rk ak nn -> Value nn = None ->
  Forall (recognized rk ak) nodes1 ->
  nodeToMember n = Panic NilDereference
  /\ forall r, nodeToMember n <> Return r.
Proof.
  intros rk ak Hid Hn Hnn Hnil Hk1.
  assert (nodeToMember n = Panic NilDereference) as ->.
  { by apply (nodeToMember_nil_value n id Hid nodes1 nn nodes2). }
  split; [reflexivity|]. intros r. discriminate.
Qed.

Lemma nodeToMember_nil_value_panics_witness :
  let n := mkNodeExtern "members/1f" None
             [mkNodeExtern "members/1f/attributes" (Some "{m1") [];
              mkNodeExtern "members/1f/raftAttributes" None []] in
  nodeToMember (H := demo_Externals) n = Panic NilDereference.
Proof.
  intros n.
  apply (nodeToMember_nil_value_panics (H := demo_Externals) n 31
           [mkNodeExtern "members/1f/attributes" (Some "{m1") []]
           (mkNodeExtern "members/1f/raftAttributes" None []) []).
  - reflexivity.
  - reflexivity.
  - left. reflexivity.
  - reflexivity.
  - constructor; [right; reflexivity|]. constructor.
Defined.

(** ** Clone *)

Section CloneProofs.
Import Heap.

Lemma Clone_clone_slice m h :
  Clone (Some m) h
  = let '(p, h1) := clone_slice (PeerURLs m) h in
    let '(c, h2) := clone_slice (ClientURLs m) h1 in
    (Some (Heap.mkMember (Heap.ID m) p (Heap.Name m) c), h2).
Proof.
  unfold Clone, clone_slice.
  destruct (PeerURLs m), (ClientURLs m); reflexivity.
Qed.

Lemma elems_length h s : wf_slice h s -> length (elems h s) = len s.
Proof.
  destruct s as [|l off k c]; [reflexivity|].
  intros (arr & Harr & Hk & Hc). simpl. rewrite Harr. simpl.
  rewrite length_take, length_drop. lia.
Qed.

(** A store that changes at [l] only leaves the slices into other arrays
    as they are. *)
Lemma elems_insert_ne h l arr s :
  array_of s ≠ Some l -> elems (<[l := arr]> h) s = elems h s.
Proof.
  destruct s as [|ls off k c]; [reflexivity|]. simpl. intros Hne.
  rewrite lookup_insert_ne; [reflexivity|congruence].
Qed.

Lemma slice_val_insert_ne h l arr s :
  array_of s ≠ Some l -> slice_val (<[l := arr]> h) s = slice_val h s.
Proof. intros Hne. unfold slice_val. by rewrite elems_insert_ne. Qed.

Lemma wf_slice_array h s l : wf_slice h s -> array_of s = Some l -> l ∈ dom h.
Proof.
  destruct s as [|ls off k c]; [discriminate|].
  intros (arr & Harr & _) [= <-]. apply elem_of_dom. by eexists.
Qed.

Lemma wf_slice_insert_ne h l arr s :
  wf_slice h s -> array_of s ≠ Some l -> wf_slice (<[l := arr]> h) s.
Proof.
  destruct s as [|ls off k c]; [done|]. simpl.
  intros (arr' & Harr & Hk) Hne. exists arr'. split; [|done].
  rewrite lookup_insert_ne; [done|congruence].
Qed.

(** [make] then [copy]: the new slice is the whole of a new array that
    holds the elements of the source. *)
Lemma clone_slice_Slice h ls off k c :
  wf_slice h (Slice ls off k c) ->
  let l := fresh (dom h) in
  clone_slice (Slice ls off k c) h
  = (Slice l 0 k k, <[l := elems h (Slice ls off k c)]> h).
Proof.
  intros Hwf l. unfold clone_slice, make, copy. cbn [is_nil negb len].
  fold l. f_equal.
  assert (Hne : ls ≠ l).
  { intros ->. apply (is_fresh (dom h)). fold l.
    by apply (wf_slice_array h (Slice l off k c)). }
  rewrite lookup_insert_eq. cbn [default].
  rewrite elems_insert_ne by (simpl; congruence).
  rewrite insert_insert_eq. f_equal.
  pose proof (elems_length h _ Hwf) as Hlen. cbn [len] in Hlen.
  rewrite Nat.min_id, take_0, take_ge by lia. simpl.
  rewrite (drop_ge (replicate k "")) by (by rewrite length_replicate).
  apply app_nil_r.
Qed.

(** What the two statements do to one sequence: the copy is nil exactly
    when the source is, it has the elements of the source, its array is
    not one of the store before, and every slice of the store before
    reads as before. *)
Lemma clone_slice_spec h s :
  wf_slice h s ->
  exists d h',
    clone_slice s h = (d, h')
    /\ is_nil d = is_nil s
    /\ slice_val h' d = slice_val h s
    /\ wf_slice h' d
    /\ (forall l, array_of d = Some l -> l ∉ dom h)
    /\ (forall s0, wf_slice h s0 ->
          slice_val h' s0 = slice_val h s0 /\ wf_slice h' s0)
    /\ dom h ⊆ dom h'.
Proof.
  intros Hwf. destruct s as [|ls off k c].
  - exists nil_slice, h. repeat split; try done.
  - eexists _, _. split; [by apply clone_slice_Slice|].
    pose proof (is_fresh (dom h)) as Hfresh.
    set (l := fresh (dom h)) in *.
    pose proof (elems_length h _ Hwf) as Hlen. cbn [len] in Hlen.
    repeat split.
    + unfold slice_val. cbn [is_nil]. f_equal.
      cbn [elems] in *. rewrite lookup_insert_eq. cbn [default].
      rewrite drop_0. unfold id at 1. apply take_ge. lia.
    + exists (elems h (Slice ls off k c)). rewrite lookup_insert_eq.
      split; [done|]. lia.
    + intros l' [= <-]. exact Hfresh.
    + apply slice_val_insert_ne. intros Heq.
      apply Hfresh. by apply (wf_slice_array h s0).
    + apply wf_slice_insert_ne; [done|]. intros Heq.
      apply Hfresh. by apply (wf_slice_array h s0).
    + rewrite dom_insert_L. apply union_subseteq_r.
Qed.

Lemma written_through_insert s h h' :
  written_through s h h' ->
  exists l arr, array_of s = Some l /\ h' = <[l := arr]> h.
Proof.
  intros (i & v & Hset). destruct s as [|l off k c]; [discriminate|].
  simpl in Hset. destruct (i <? k)%nat; [|discriminate].
  injection Hset as <-. by eexists _, _.
Qed.

Lemma member_val_insert_ne h l arr m :
  array_of (PeerURLs m) ≠ Some l -> array_of (ClientURLs m) ≠ Some l ->
  member_val (<[l := arr]> h) m = member_val h m.
Proof.
  intros Hp Hc. unfold member_val. by rewrite !slice_val_insert_ne.
Qed.

End CloneProofs.

(** C8: [Clone] maps the nil record to nil. For a record (whose slices
    lie within arrays of the store) it returns a record that reads equal
    in all fields, leaving the original as it reads; a nil sequence is
    copied as nil, not as an empty one; the arrays of the copy are new
    ones, so that a write through a sequence of the copy leaves the
    original as it reads, and a write through a sequence of the original
    leaves the copy. *)
Theorem Clone_deep_copy :
  (forall h, Heap.Clone None h = (None, h))
  /\ forall (m : Heap.Member) (h : gmap Heap.loc (list string)),
      Heap.wf_member h m ->
      exists mm h',
        Heap.Clone (Some m) h = (Some mm, h')
        /\ member_val h' mm = member_val h m
        /\ member_val h' m = member_val h m
        /\ (Heap.PeerURLs m = Heap.nil_slice ->
            Heap.PeerURLs mm = Heap.nil_slice)
        /\ (Heap.ClientURLs m = Heap.nil_slice ->
            Heap.ClientURLs mm = Heap.nil_slice)
        /\ (forall s l,
              s = Heap.PeerURLs mm \/ s = Heap.ClientURLs mm ->
              Heap.array_of s = Some l -> l ∉ dom h)
        /\ (forall s h'',
              s = Heap.PeerURLs mm \/ s = Heap.ClientURLs mm ->
              Heap.written_through s h' h'' ->
              member_val h'' m = member_val h' m)
        /\ (forall s h'',
              s = Heap.PeerURLs m \/ s = Heap.ClientURLs m ->
              Heap.written_through s h' h'' ->
              member_val h'' mm = member_val h' mm).
Proof.
  split; [reflexivity|]. intros m h [Hwp Hwc].
  rewrite Clone_clone_slice.
  destruct (clone_slice_spec h _ Hwp)
    as (p & h1 & -> & Hnilp & Hvalp & Hwfp & Hfreshp & Hframe1 & Hdom1).
  destruct (Hframe1 _ Hwc) as [Hvalc1 Hwc1].
  destruct (Hframe1 _ Hwp) as [Hvalp1 Hwp1].
  destruct (clone_slice_spec h1 _ Hwc1)
    as (c & h2 & -> & Hnilc & Hvalc & Hwfc & Hfreshc & Hframe2 & Hdom2).
  destruct (Hframe2 _ Hwfp) as [Hvalp2 _].
  destruct (Hframe2 _ Hwp1) as [Hvalpm2 _].
  destruct (Hframe2 _ Hwc1) as [Hvalcm2 _].
  assert (Hfresh : forall s l,
            s = p \/ s = c -> Heap.array_of s = Some l -> l ∉ dom h).
  { intros s l [-> | ->] Hl; [by apply Hfreshp|].
    intros Hin. by apply (Hfreshc l Hl), Hdom1. }
  eexists _, _. split; [reflexivity|]. cbn [Heap.PeerURLs Heap.ClientURLs].
  repeat split.
  - unfold member_val. cbn. congruence.
  - unfold member_val. congruence.
  - intros Hnil. rewrite Hnil in Hnilp. by destruct p.
  - intros Hnil. rewrite Hnil in Hnilc. by destruct c.
  - exact Hfresh.
  - intros s h'' Hs (l & arr & Hl & ->)%written_through_insert.
    pose proof (Hfresh s l Hs Hl) as Hnotin.
    apply member_val_insert_ne; intros Heq; apply Hnotin;
      (eapply wf_slice_array; [|exact Heq]; assumption).
  - intros s h'' Hs (l & arr & Hl & ->)%written_through_insert.
    assert (l ∈ dom h) as Hin.
    { destruct Hs as [-> | ->];
        (eapply wf_slice_array; [|exact Hl]; assumption). }
    apply member_val_insert_ne; cbn; intros Heq;
      [apply (Hfresh p l) | apply (Hfresh c l)]; auto.
Qed.

Lemma Clone_deep_copy_witness :
  let h : gmap Heap.loc (list string) :=
    {[ 1%positive := ["http://a:1"; "http://b:2"] ]} in
  let m := Heap.mkMember 7 (Heap.Slice 1%positive 0 2 2) "m1" Heap.nil_slice in
  exists mm h',
    Heap.Clone (Some m) h = (Some mm, h')
    /\ member_val h' mm
       = mkMember 7 (mkRaftAttributes (Some ["http://a:1"; "http://b:2"]))
           (mkAttributes "m1" None)
    /\ Heap.ClientURLs mm = Heap.nil_slice.
Proof.
  intros h m.
  destruct (proj2 Clone_deep_copy m h)
    as (mm & h' & HClone & Hval & _ & _ & Hnil & _).
  - split; [|exact I].
    exists ["http://a:1"; "http://b:2"]. split; [reflexivity|]. simpl. lia.
  - exists mm, h'. split; [exact HClone|]. split; [|by apply Hnil].
    rewrite Hval. reflexivity.
Defined.

(** The model runs: a record is cloned, then the first routing endpoint
    of the copy is overwritten; the copy reads changed, the original
    reads as before. *)
Example Clone_then_write :
  let h : gmap Heap.loc (list string) :=
    {[ 1%positive := ["http://a:1"; "http://b:2"] ]} in
  let m := Heap.mkMember 7 (Heap.Slice 1%positive 0 2 2) "m1" Heap.nil_slice in
  match Heap.Clone (Some m) h with
  | (Some mm, h') =>
      match Heap.set_index (Heap.PeerURLs mm) 0 "http://z:9" h' with
      | Return h'' =>
          PeerURLs (member_val h'' mm) = Some ["http://z:9"; "http://b:2"]
          /\ PeerURLs (member_val h'' m) = Some ["http://a:1"; "http://b:2"]
          /\ ClientURLs (member_val h'' mm) = None
      | Panic _ => False
      end
  | (None, _) => False
  end.
Proof. vm_compute. repeat split. Qed.

(** * Further properties *)

(** ** NewMember *)

Lemma sort_Strings_singleton x : sort_Strings [x] = [x].
Proof. apply sort_Strings_sorted_id. repeat constructor. Qed.

Lemma be_uint_fold_bound bs : forall acc,
  0 <= acc -> Forall is_byte bs ->
  0 <= fold_left (fun a b => a * 256 + b) bs acc
    < (acc + 1) * 256 ^ Z.of_nat (length bs).
Proof.
  induction bs as [|b bs IH]; intros acc Hacc Hb.
  - simpl. lia.
  - inversion_clear Hb as [|? ? Hb0 Hbs]. unfold is_byte in Hb0.
    cbn [fold_left length]. rewrite Nat2Z.inj_succ, Z.pow_succ_r by lia.
    specialize (IH (acc * 256 + b) ltac:(lia) Hbs).
    assert (0 < 256 ^ Z.of_nat (length bs)) by (apply Z.pow_pos_nonneg; lia).
    nia.
Qed.

(** X1: the display name takes no part in the identity: two calls that
    differ in the name only return records with the same identity and
    the same routing endpoints, each under its own name. *)
Theorem NewMember_identity_ignores_name name1 name2 urls salt now :
  exists m1 m2,
    NewMember name1 urls salt now = Return (Some m1)
    /\ NewMember name2 urls salt now = Return (Some m2)
    /\ ID m1 = ID m2 /\ PeerURLs m1 = PeerURLs m2
    /\ Name m1 = name1 /\ Name m2 = name2.
Proof.
  eexists _, _.
  split; [apply NewMember_returns|]. split; [apply NewMember_returns|].
  repeat split.
Qed.

(** X2: the identity [NewMember] derives is an unsigned 64-bit value. *)
Theorem NewMember_identity_range name urls salt now m :
  NewMember name urls salt now = Return (Some m) -> 0 <= ID m < 2 ^ 64.
Proof.
  rewrite NewMember_returns. intros [= <-]. cbn [ID]. unfold spec_identity.
  pose proof (be_uint_fold_bound (take 8 (SHA1.Sum (bytes_of_string
    (spec_hash_input (sort_Strings urls) salt now)))) 0 ltac:(lia)) as Hb.
  rewrite length_take, sha1_Sum_length in Hb.
  apply Hb, Forall_take, sha1_Sum_range.
Qed.

Lemma NewMember_identity_range_witness :
  0 <= 14544069596553697298 < 2 ^ 64.
Proof.
  apply (NewMember_identity_range "mem1" ["http://10.0.0.8:2379"] "" None
           (mkMember 14544069596553697298
              (mkRaftAttributes (Some ["http://10.0.0.8:2379"]))
              (mkAttributes "mem1" None))).
  vm_compute. reflexivity.
Defined.

(** X3: nothing separates the parts of the hashed input. A tail of the
    only endpoint can move to the front of the cluster name, and the
    decimal timestamp to the end of the cluster name, without changing
    the identity. *)
Theorem NewMember_hash_input_unseparated name u v salt (t : Time) :
  (exists m1 m2,
     NewMember name [u +:+ v] salt None = Return (Some m1)
     /\ NewMember name [u] (v +:+ salt) None = Return (Some m2)
     /\ ID m1 = ID m2)
  /\ (forall urls, exists m1 m2,
        NewMember name urls (salt +:+ Sprintf_d (Unix t)) None
          = Return (Some m1)
        /\ NewMember name urls salt (Some t) = Return (Some m2)
        /\ ID m1 = ID m2).
Proof.
  split; [|intros urls]; eexists _, _;
    (split; [apply NewMember_returns|]; split; [apply NewMember_returns|]);
    cbn [ID]; unfold spec_identity, spec_hash_input; do 3 f_equal.
  - rewrite !sort_Strings_singleton. cbn [String.concat].
    rewrite !bytes_of_string_app. by rewrite <- !app_assoc.
  - rewrite !bytes_of_string_app. rewrite <- !app_assoc. f_equal. f_equal.
    unfold bytes_of_string. simpl. by rewrite app_nil_r.
Qed.

(** ** The sort interfaces *)

Lemma index_Return {A} (s : option (list A)) (i : Z) (x : A) :
  index s i = Return x <-> 0 <= i /\ slice_elems s !! Z.to_nat i = Some x.
Proof.
  unfold index. split.
  - destruct (Z.ltb_spec i 0); [discriminate|]. simpl.
    destruct (Z.leb_spec (Z.of_nat (slice_len s)) i); [discriminate|].
    destruct (slice_elems s !! Z.to_nat i); [|discriminate].
    intros [= ->]. auto.
  - intros [Hi Hx]. pose proof (lookup_lt_Some _ _ _ Hx) as Hlt.
    assert (length (slice_elems s) = slice_len s) as Hlen by by destruct s.
    destruct (Z.ltb_spec i 0); [lia|]. simpl.
    destruct (Z.leb_spec (Z.of_nat (slice_len s)) i); [lia|].
    by rewrite Hx.
Qed.

Lemma index_cases {A} (s : option (list A)) (i : Z) :
  (exists x, index s i = Return x) \/ index s i = Panic IndexOutOfRange.
Proof.
  unfold index. destruct (_ || _); [by right|].
  destruct (slice_elems s !! Z.to_nat i); eauto.
Qed.

Lemma Less_member_at (s : SortableMemberSlice) i j mi mj :
  member_at s i mi -> member_at s j mj ->
  SortableMemberSlice_Less s i j = Return (ID mi <? ID mj).
Proof.
  intros Hi Hj. unfold SortableMemberSlice_Less.
  rewrite (proj2 (index_Return (Some s) i (Some mi)) Hi). simpl.
  rewrite (proj2 (index_Return (Some s) j (Some mj)) Hj). reflexivity.
Qed.

(** X4: on indices that hold records, [Less] of the sort by identity
    returns whether the first identity is below the second, and it is a
    strict weak order as [sort.Interface] wants: irreflexive, asymmetric,
    transitive, and two places neither of which is less hold the same
    identity. *)
Theorem SortableMemberSlice_Less_strict_order (s : SortableMemberSlice)
    (i j k : Z) (mi mj mk : Member) :
  member_at s i mi -> member_at s j mj -> member_at s k mk ->
  SortableMemberSlice_Less s i j = Return (bool_decide (ID mi < ID mj))
  /\ SortableMemberSlice_Less s i i = Return false
  /\ (SortableMemberSlice_Less s i j = Return true ->
      SortableMemberSlice_Less s j i = Return false)
  /\ (SortableMemberSlice_Less s i j = Return true ->
      SortableMemberSlice_Less s j k = Return true ->
      SortableMemberSlice_Less s i k = Return true)
  /\ (SortableMemberSlice_Less s i j = Return false ->
      SortableMemberSlice_Less s j i = Return false -> ID mi = ID mj).
Proof.
  intros Hi Hj Hk.
  rewrite !(Less_member_at s _ _ _ _ Hi Hj), !(Less_member_at s _ _ _ _ Hi Hi),
    !(Less_member_at s _ _ _ _ Hj Hi), !(Less_member_at s _ _ _ _ Hj Hk),
    !(Less_member_at s _ _ _ _ Hi Hk).
  repeat split.
  - f_equal. case_bool_decide; lia.
  - f_equal. lia.
  - intros [= ?]. f_equal. lia.
  - intros [= ?] [= ?]. f_equal. lia.
  - intros [= ?] [= ?]. lia.
Qed.

Lemma SortableMemberSlice_Less_strict_order_witness :
  let s := [Some (mkMember 5 zero_RaftAttributes zero_Attributes);
            Some (mkMember 1 zero_RaftAttributes zero_Attributes);
            Some (mkMember 3 zero_RaftAttributes zero_Attributes)] in
  SortableMemberSlice_Less s 1 2 = Return (bool_decide (1 < 3)).
Proof.
  intros s.
  destruct (SortableMemberSlice_Less_strict_order s 1 2 0
              (mkMember 1 zero_RaftAttributes zero_Attributes)
              (mkMember 3 zero_RaftAttributes zero_Attributes)
              (mkMember 5 zero_RaftAttributes zero_Attributes))
    as [Hless _].
  - split; [lia|reflexivity].
  - split; [lia|reflexivity].
  - split; [lia|reflexivity].
  - exact Hless.
Defined.

(** X5: [Less] of the sort by identity panics exactly when one of the
    two indices is out of range or holds a nil pointer. *)
Theorem SortableMemberSlice_Less_panics_iff (s : SortableMemberSlice) (i j : Z) :
  is_panic (SortableMemberSlice_Less s i j)
  <-> ¬ ((exists mi, member_at s i mi) /\ (exists mj, member_at s j mj)).
Proof.
  split.
  - intros Hp [[mi Hi] [mj Hj]].
    by rewrite (Less_member_at s i j mi mj Hi Hj) in Hp.
  - intros Hnot. unfold SortableMemberSlice_Less.
    destruct (index_cases (Some s) i) as [[pi Hpi]| ->]; [|exact I].
    rewrite Hpi. simpl. destruct pi as [mi|]; [|exact I]. simpl.
    destruct (index_cases (Some s) j) as [[pj Hpj]| ->]; [|exact I].
    rewrite Hpj. simpl. destruct pj as [mj|]; [|exact I].
    destruct Hnot.
    split; eexists; apply (proj1 (index_Return (Some s) _ _)); eassumption.
Qed.

Lemma insert_cons_Permutation {A} (l : list A) (j : nat) (a y : A) :
  l !! j = Some y -> y :: <[j := a]> l ≡ₚ a :: l.
Proof.
  revert j. induction l as [|b l IH]; intros [|j] Hj; simplify_eq/=.
  - apply perm_swap.
  - rewrite perm_swap. rewrite (IH j Hj). apply perm_swap.
Qed.

Lemma exchange_Permutation {A} (l : list A) : forall (i j : nat) (x y : A),
  l !! i = Some x -> l !! j = Some y ->
  <[j := x]> (<[i := y]> l) ≡ₚ l.
Proof.
  induction l as [|a l IH]; intros [|i] [|j] x y Hi Hj; simplify_eq/=.
  - reflexivity.
  - by apply insert_cons_Permutation.
  - by apply insert_cons_Permutation.
  - f_equiv. by apply IH.
Qed.

Lemma exchange_twice {A} (l : list A) (i j : nat) (x y : A) :
  l !! i = Some x -> l !! j = Some y ->
  <[j := y]> (<[i := x]> (<[j := x]> (<[i := y]> l))) = l.
Proof.
  intros Hi Hj.
  pose proof (lookup_lt_Some _ _ _ Hi) as Hli.
  pose proof (lookup_lt_Some _ _ _ Hj) as Hlj.
  apply list_eq. intros k.
  destruct (decide (k = j)) as [->|Hkj].
  - rewrite list_lookup_insert_eq; [done|]. by rewrite !length_insert.
  - rewrite list_lookup_insert_ne by done.
    destruct (decide (k = i)) as [->|Hki].
    + rewrite list_lookup_insert_eq; [done|]. by rewrite !length_insert.
    + by rewrite !list_lookup_insert_ne.
Qed.

(** X6: [Swap] on two indices in range exchanges the two pointers and
    leaves every other place: the slice keeps its length and is a
    permutation of what it was, and the same [Swap] again restores it.
    On an index out of range it panics. The sort by first endpoint has
    the same [Swap]. *)
Theorem SortableMemberSlice_Swap_exchanges (s : SortableMemberSlice) (i j : Z) :
  (0 <= i < SortableMemberSlice_Len s ->
   0 <= j < SortableMemberSlice_Len s ->
   exists s',
     SortableMemberSlice_Swap s i j = Return s'
     /\ s' !! Z.to_nat i = s !! Z.to_nat j
     /\ s' !! Z.to_nat j = s !! Z.to_nat i
     /\ (forall k, k <> Z.to_nat i -> k <> Z.to_nat j -> s' !! k = s !! k)
     /\ length s' = length s /\ s' ≡ₚ s
     /\ SortableMemberSlice_Swap s' i j = Return s)
  /\ (¬ (0 <= i < SortableMemberSlice_Len s
         /\ 0 <= j < SortableMemberSlice_Len s) ->
      SortableMemberSlice_Swap s i j = Panic IndexOutOfRange)
  /\ SortableMemberSliceByPeerURLs_Swap s i j = SortableMemberSlice_Swap s i j.
Proof.
  unfold SortableMemberSlice_Len, SortableMemberSlice in *.
  split; [|split; [|reflexivity]].
  - intros Hi Hj.
    destruct (lookup_lt_is_Some_2 s (Z.to_nat i)) as [pi Hpi]; [lia|].
    destruct (lookup_lt_is_Some_2 s (Z.to_nat j)) as [pj Hpj]; [lia|].
    assert (Hswap : forall (t : list (option Member)) (x y : option Member),
              t !! Z.to_nat i = Some x -> t !! Z.to_nat j = Some y ->
              SortableMemberSlice_Swap t i j
              = Return (<[Z.to_nat j := x]> (<[Z.to_nat i := y]> t))).
    { intros t x y Hx Hy.
      unfold SortableMemberSlice_Swap, SortableMemberSlice.
      rewrite (proj2 (index_Return (Some t) j y)) by (split; [lia|done]).
      simpl.
      by rewrite (proj2 (index_Return (Some t) i x)) by (split; [lia|done]). }
    eexists. split; [by apply Hswap|].
    assert (Hli : (Z.to_nat i < length s)%nat) by lia.
    assert (Hlj : (Z.to_nat j < length s)%nat) by lia.
    split; [|split; [|split; [|split; [|split]]]].
    + rewrite Hpj. destruct (decide (Z.to_nat i = Z.to_nat j)) as [Heq|Hne].
      * rewrite <- Heq. rewrite list_lookup_insert_eq
          by (by rewrite length_insert). congruence.
      * rewrite list_lookup_insert_ne by done.
        by rewrite list_lookup_insert_eq.
    + rewrite Hpi. rewrite list_lookup_insert_eq; [done|].
      by rewrite length_insert.
    + intros k Hki Hkj. by rewrite !list_lookup_insert_ne.
    + by rewrite !length_insert.
    + by apply exchange_Permutation.
    + rewrite (Hswap _ pj pi).
      * f_equal. by apply exchange_twice.
      * destruct (decide (Z.to_nat i = Z.to_nat j)) as [Heq|Hne].
        -- rewrite <- Heq. rewrite list_lookup_insert_eq
             by (by rewrite length_insert). congruence.
        -- rewrite list_lookup_insert_ne by done.
           by rewrite list_lookup_insert_eq.
      * rewrite list_lookup_insert_eq; [done|]. by rewrite length_insert.
  - intros Hnot. unfold SortableMemberSlice_Swap, SortableMemberSlice.
    destruct (index_cases (Some s) j) as [[pj Hpj]| ->]; [|reflexivity].
    rewrite Hpj. simpl.
    destruct (index_cases (Some s) i) as [[pi Hpi]| ->]; [|reflexivity].
    destruct Hnot.
    apply index_Return in Hpi as [? Hpi%lookup_lt_Some].
    apply index_Return in Hpj as [? Hpj%lookup_lt_Some].
    simpl in *. lia.
Qed.

Lemma SortableMemberSlice_Swap_exchanges_witness :
  let a := Some (mkMember 5 zero_RaftAttributes zero_Attributes) in
  let b := Some (mkMember 1 zero_RaftAttributes zero_Attributes) in
  exists s', SortableMemberSlice_Swap [a; b; None] 0 1 = Return s'
             /\ s' !! 0%nat = Some b.
Proof.
  intros a b.
  destruct (SortableMemberSlice_Swap_exchanges [a; b; None] 0 1)
    as [Hswap _].
  destruct Hswap as (s' & Hs' & H0 & _).
  - vm_compute. split; [discriminate|reflexivity].
  - vm_compute. split; [discriminate|reflexivity].
  - exists s'. split; [exact Hs'|exact H0].
Defined.

Lemma string_compare_refl s : String.compare s s = Eq.
Proof.
  pose proof (String.compare_antisym s s) as Hanti.
  destruct (String.compare s s); simpl in Hanti; congruence.
Qed.

Lemma string_ltb_le a b : String.ltb a b = true <-> String.le a b /\ a ≠ b.
Proof.
  unfold String.le, String.ltb, String.leb. split.
  - destruct (String.compare a b) eqn:Hc; try discriminate. intros _.
    split; [exact I|]. intros ->. by rewrite string_compare_refl in Hc.
  - intros [Hle Hne]. destruct (String.compare a b) eqn:Hc; [|done|done].
    by apply String.compare_eq_iff in Hc.
Qed.

Lemma string_ltb_irrefl a : String.ltb a a = false.
Proof.
  destruct (String.ltb a a) eqn:Hlt; [|done].
  apply string_ltb_le in Hlt as [_ Hne]. done.
Qed.

Lemma string_ltb_trans a b c :
  String.ltb a b = true -> String.ltb b c = true -> String.ltb a c = true.
Proof.
  intros [Hab Hne1]%string_ltb_le [Hbc Hne2]%string_ltb_le.
  apply string_ltb_le. split; [by etrans|].
  intros ->. apply Hne1. by apply (anti_symm String.le).
Qed.

Lemma string_ltb_asym a b : String.ltb a b = true -> String.ltb b a = false.
Proof.
  intros Hab. destruct (String.ltb b a) eqn:Hba; [|done].
  pose proof (string_ltb_trans a b a Hab Hba) as Haa.
  by rewrite string_ltb_irrefl in Haa.
Qed.

Lemma string_ltb_total a b :
  String.ltb a b = false -> String.ltb b a = false -> a = b.
Proof.
  intros Hab Hba. destruct (decide (a = b)) as [|Hne]; [done|].
  destruct (total String.le a b) as [Hle|Hle].
  - assert (String.ltb a b = true) by by apply string_ltb_le. congruence.
  - assert (String.ltb b a = true) by (apply string_ltb_le; split; auto).
    congruence.
Qed.

Lemma LessByPeerURLs_first (p : SortableMemberSliceByPeerURLs) i j mi mj ui uj :
  member_at p i mi -> member_at p j mj ->
  first_PeerURL mi = Some ui -> first_PeerURL mj = Some uj ->
  SortableMemberSliceByPeerURLs_Less p i j = Return (String.ltb ui uj).
Proof.
  intros Hi Hj Hui Huj.
  unfold SortableMemberSliceByPeerURLs_Less.
  rewrite (proj2 (index_Return (Some p) i (Some mi)) Hi). simpl.
  rewrite (proj2 (index_Return (PeerURLs mi) 0 ui)) by (split; [lia|done]).
  simpl.
  rewrite (proj2 (index_Return (Some p) j (Some mj)) Hj). simpl.
  by rewrite (proj2 (index_Return (PeerURLs mj) 0 uj)) by (split; [lia|done]).
Qed.

(** X7: on indices that hold records with at least one routing endpoint
    each, [Less] of the sort by endpoint returns whether the first
    endpoint of the one is below the first endpoint of the other in the
    bytewise order of strings, and it is a strict weak order:
    irreflexive, asymmetric, transitive, and two places neither of which
    is less have the same first endpoint. *)
Theorem SortableMemberSliceByPeerURLs_Less_strict_order
    (p : SortableMemberSliceByPeerURLs) (i j k : Z) (mi mj mk : Member)
    (ui uj uk : string) :
  member_at p i mi -> member_at p j mj -> member_at p k mk ->
  first_PeerURL mi = Some ui -> first_PeerURL mj = Some uj ->
  first_PeerURL mk = Some uk ->
  SortableMemberSliceByPeerURLs_Less p i j = Return (String.ltb ui uj)
  /\ SortableMemberSliceByPeerURLs_Less p i i = Return false
  /\ (SortableMemberSliceByPeerURLs_Less p i j = Return true ->
      SortableMemberSliceByPeerURLs_Less p j i = Return false)
  /\ (SortableMemberSliceByPeerURLs_Less p i j = Return true ->
      SortableMemberSliceByPeerURLs_Less p j k = Return true ->
      SortableMemberSliceByPeerURLs_Less p i k = Return true)
  /\ (SortableMemberSliceByPeerURLs_Less p i j = Return false ->
      SortableMemberSliceByPeerURLs_Less p j i = Return false -> ui = uj).
Proof.
  intros Hi Hj Hk Hui Huj Huk.
  rewrite !(LessByPeerURLs_first p i j mi mj ui uj),
    !(LessByPeerURLs_first p i i mi mi ui ui),
    !(LessByPeerURLs_first p j i mj mi uj ui),
    !(LessByPeerURLs_first p j k mj mk uj uk),
    !(LessByPeerURLs_first p i k mi mk ui uk) by done.
  repeat split.
  - f_equal. apply string_ltb_irrefl.
  - intros [= Hlt]. f_equal. by apply string_ltb_asym.
  - intros [= H1] [= H2]. f_equal. by apply (string_ltb_trans ui uj uk).
  - intros [= H1] [= H2]. by apply string_ltb_total.
Qed.

Lemma SortableMemberSliceByPeerURLs_Less_strict_order_witness :
  let z := mkMember 1 (mkRaftAttributes (Some ["http://z"])) zero_Attributes in
  let a := mkMember 2 (mkRaftAttributes (Some ["http://a"])) zero_Attributes in
  SortableMemberSliceByPeerURLs_Less [Some z; Some a] 1 0 = Return true.
Proof.
  intros z a.
  destruct (SortableMemberSliceByPeerURLs_Less_strict_order
              [Some z; Some a] 1 0 1 a z a "http://a" "http://z" "http://a")
    as [Hless _].
  - split; [lia|reflexivity].
  - split; [lia|reflexivity].
  - split; [lia|reflexivity].
  - reflexivity.
  - reflexivity.
  - reflexivity.
  - exact Hless.
Defined.

(** X8: when the two indices hold records, [Less] of the sort by endpoint
    panics with an index out of range exactly when one of the two records
    has no routing endpoint (a nil or an empty sequence). *)
Theorem SortableMemberSliceByPeerURLs_Less_no_endpoint
    (p : SortableMemberSliceByPeerURLs) (i j : Z) (mi mj : Member) :
  member_at p i mi -> member_at p j mj ->
  (slice_len (PeerURLs mi) = 0%nat \/ slice_len (PeerURLs mj) = 0%nat ->
   SortableMemberSliceByPeerURLs_Less p i j = Panic IndexOutOfRange)
  /\ (is_panic (SortableMemberSliceByPeerURLs_Less p i j) ->
      slice_len (PeerURLs mi) = 0%nat \/ slice_len (PeerURLs mj) = 0%nat).
Proof.
  intros Hi Hj.
  assert (Hfirst : forall m : Member,
            slice_len (PeerURLs m) = 0%nat
            /\ index (PeerURLs m) 0 = Panic IndexOutOfRange
            \/ exists u, first_PeerURL m = Some u
                         /\ index (PeerURLs m) 0 = Return u).
  { intros m. unfold first_PeerURL.
    destruct (PeerURLs m) as [[|u l]|]; [by left| |by left].
    right. by exists u. }
  unfold SortableMemberSliceByPeerURLs_Less.
  rewrite (proj2 (index_Return (Some p) i (Some mi)) Hi). simpl.
  destruct (Hfirst mi) as [[Hzi ->]|(ui & Hui & ->)]; simpl.
  { split; [done|]. by left. }
  rewrite (proj2 (index_Return (Some p) j (Some mj)) Hj). simpl.
  destruct (Hfirst mj) as [[Hzj ->]|(uj & Huj & ->)]; simpl.
  { split; [done|]. by right. }
  split; [|done]. intros [Hz|Hz].
  - unfold first_PeerURL in Hui. destruct (PeerURLs mi) as [[|? ?]|]; done.
  - unfold first_PeerURL in Huj. destruct (PeerURLs mj) as [[|? ?]|]; done.
Qed.

Lemma SortableMemberSliceByPeerURLs_Less_no_endpoint_witness :
  let z := mkMember 1 (mkRaftAttributes (Some ["http://z"])) zero_Attributes in
  let e := mkMember 2 (mkRaftAttributes (Some [])) zero_Attributes in
  SortableMemberSliceByPeerURLs_Less [Some z; Some e] 0 1
  = Panic IndexOutOfRange.
Proof.
  intros z e.
  destruct (SortableMemberSliceByPeerURLs_Less_no_endpoint
              [Some z; Some e] 0 1 z e) as [Hpanic _].
  - split; [lia|reflexivity].
  - split; [lia|reflexivity].
  - apply Hpanic. right. reflexivity.
Defined.

(** ** getVersion, further *)

Section GetVersionFurther.
Context `{Externals}.

Lemma getVersion_loop_sweep cc urls : forall k err,
  getVersion_loop cc k urls err
  = match first_parsed (sweep cc k urls) with
    | Some v => (v, None)
    | None =>
        ("", match last (sweep cc k urls) with
             | Some (TransportFailure e) => Some e
             | Some _ => None
             | None => err
             end)
    end.
Proof.
  induction urls as [|u urls IH]; intros k err; [reflexivity|].
  rewrite getVersion_loop_step. cbn [sweep]. rewrite last_cons.
  destruct (probe cc k u) as [e|e|e|v]; [..|reflexivity];
    rewrite IH; cbn [first_parsed];
    destruct (first_parsed (sweep cc (S k) urls)); try reflexivity;
    by destruct (last (sweep cc (S k) urls)) as [[]|].
Qed.

Lemma first_parsed_None rs : first_parsed rs = None -> Forall failed rs.
Proof.
  induction rs as [|r rs IH]; [constructor|].
  destruct r; simpl; try discriminate; intros Hrs;
    (constructor; [by eexists|by apply IH]).
Qed.

Lemma sweep_ext cc cc' urls : forall k,
  (forall i url, (k <= i < k + length urls)%nat -> cc' i url = cc i url) ->
  sweep cc' k urls = sweep cc k urls.
Proof.
  induction urls as [|u urls IH]; intros k Hagree; [reflexivity|].
  cbn [sweep]. f_equal.
  - unfold probe. rewrite Hagree; [reflexivity|simpl; lia].
  - apply IH. intros i url Hi. apply Hagree. simpl. lia.
Qed.

(** X9: what [getVersion] returns, for every record and transport, in
    terms of what each request of the sweep comes to: the version of the
    first endpoint that answers with one, and no error; when no endpoint
    does, the empty string, with the error of the last request if that
    one failed in the transport and a nil error otherwise. *)
Theorem getVersion_by_sweep (m : Member) (tr : Transport) :
  let rs := sweep tr 0 (slice_elems (PeerURLs m)) in
  getVersion m tr
  = match first_parsed rs with
    | Some v => (v, None)
    | None => ("", last_transport_error rs)
    end.
Proof.
  intros rs. unfold getVersion. rewrite getVersion_loop_sweep. fold rs.
  destruct (first_parsed rs); [reflexivity|].
  unfold last_transport_error. by destruct (last rs) as [[]|].
Qed.

(** X10: an error comes without a version and only after a full failed
    sweep: when [getVersion] returns an error, the version is empty,
    every endpoint has failed, and the error is that of the transport
    for the last endpoint. *)
Theorem getVersion_error_sound (m : Member) (tr : Transport) v e :
  getVersion m tr = (v, Some e) ->
  let rs := sweep tr 0 (slice_elems (PeerURLs m)) in
  v = "" /\ Forall failed rs /\ last rs = Some (TransportFailure e).
Proof.
  intros Hget rs. unfold getVersion in Hget.
  rewrite getVersion_loop_sweep in Hget. fold rs in Hget.
  destruct (first_parsed rs) eqn:Hfirst; [discriminate|].
  injection Hget as <- Hlast. split; [reflexivity|].
  split; [by apply first_parsed_None|].
  by destruct (last rs) as [[]|]; simplify_eq.
Qed.

(** X11: a record without routing endpoints (a nil or an empty sequence)
    gets the empty version and a nil error, whatever the transport: no
    failure is reported although no version was obtained. *)
Theorem getVersion_no_endpoint (m : Member) (tr : Transport) :
  slice_len (PeerURLs m) = 0%nat -> getVersion m tr = ("", None).
Proof.
  intros Hlen. unfold getVersion.
  by destruct (PeerURLs m) as [[|? ?]|].
Qed.

(** X12: the sweep stops at the first endpoint that answers with a
    version: that version is returned without error, and what the
    transport would do on later requests has no part in the result. *)
Theorem getVersion_stops_at_first_parsed (m : Member) (tr tr' : Transport)
    urls1 u urls2 v :
  slice_elems (PeerURLs m) = urls1 ++ u :: urls2 ->
  Forall failed (sweep tr 0 urls1) ->
  probe tr (length urls1) u = Parsed v ->
  (forall k url, (k <= length urls1)%nat -> tr' k url = tr k url) ->
  getVersion m tr = (v, None) /\ getVersion m tr' = (v, None).
Proof.
  intros Hm Hfail Hu Hagree.
  assert (Hone : forall cc : Transport,
            (forall k url, (k <= length urls1)%nat -> cc k url = tr k url) ->
            getVersion m cc = (v, None)).
  { intros cc Hcc. unfold getVersion. rewrite Hm.
    apply getVersion_loop_first_parsed.
    - rewrite (sweep_ext tr cc); [done|]. intros i url Hi. apply Hcc. lia.
    - unfold probe. rewrite Hcc by lia. exact Hu. }
  split; apply Hone; auto.
Qed.

End GetVersionFurther.

Lemma getVersion_error_sound_witness :
  let m := mkMember 1 (mkRaftAttributes (Some ["http://up:2"; "http://down:1"]))
             zero_Attributes in
  let tr : Transport := fun k url =>
    if String.eqb url "http://up:2/version"
    then inl (mkResponse (inl "not a version"))
    else inr (ExternalError "connection refused") in
  last (sweep (H := demo_Externals) tr 0 (slice_elems (PeerURLs m)))
  = Some (TransportFailure (ExternalError "connection refused")).
Proof.
  intros m tr.
  apply (getVersion_error_sound (H := demo_Externals) m tr "").
  reflexivity.
Defined.

Lemma getVersion_no_endpoint_witness :
  getVersion (H := demo_Externals) (mkMember 1 zero_RaftAttributes zero_Attributes)
    (fun _ _ => inr (ExternalError "connection refused"))
  = ("", None).
Proof. apply getVersion_no_endpoint. reflexivity. Defined.

Lemma getVersion_stops_at_first_parsed_witness :
  let m := mkMember 1 (mkRaftAttributes
                         (Some ["http://down:1"; "http://up:2"; "http://c:3"]))
             zero_Attributes in
  let tr : Transport := fun k url =>
    if String.eqb url "http://up:2/version"
    then inl (mkResponse (inl "{3.5.0"))
    else inr (ExternalError "connection refused") in
  getVersion (H := demo_Externals) m tr = ("3.5.0", None).
Proof.
  intros m tr.
  apply (getVersion_stops_at_first_parsed (H := demo_Externals) m tr tr
           ["http://down:1"] "http://up:2" ["http://c:3"] "3.5.0").
  - reflexivity.
  - repeat constructor. by eexists.
  - reflexivity.
  - reflexivity.
Defined.

(** ** nodeToMember, further *)

Section NodeToMemberFurther.
Context `{Externals}.

(** X13: a node whose last key segment does not parse as an identity
    makes [nodeToMember] panic through [log.Panicf] with the parse
    error, before any child is looked at: no decode error is returned,
    whatever the children are. *)
Theorem nodeToMember_malformed_identity (n : NodeExtern) (err : error) :
  IDFromString (path_Base (Key n)) = inr err ->
  nodeToMember n
  = Panic (LogPanicf "unexpected parse member id error: %v" [ArgError err])
  /\ forall n', Key n' = Key n -> nodeToMember n' = nodeToMember n.
Proof.
  intros Hid.
  assert (Hpanic : forall n', Key n' = Key n ->
            nodeToMember n'
            = Panic (LogPanicf "unexpected parse member id error: %v"
                       [ArgError err])).
  { intros n' Hkey. unfold nodeToMember, mustParseMemberIDFromKey.
    by rewrite Hkey, Hid. }
  split; [by apply Hpanic|]. intros n' Hkey.
  by rewrite (Hpanic n' Hkey), (Hpanic n).
Qed.

(** X14: when every child has a recognized key and both blobs are
    present and deserialize, [nodeToMember] returns without error the
    record made of the identity parsed from the key, the raft attributes
    and the attributes the two blobs decode to. *)
Theorem nodeToMember_both_blobs (n : NodeExtern) (id : ID_t)
    (rdata adata : string) (ra : RaftAttributes) (a : Attributes) :
  let raftAttrKey := path_Join (Key n) raftAttributesSuffix in
  let attrKey := path_Join (Key n) attributesSuffix in
  IDFromString (path_Base (Key n)) = inl id ->
  Forall (recognized raftAttrKey attrKey) (Nodes n) ->
  blobs raftAttrKey (Nodes n) = [Some rdata] ->
  blobs attrKey (Nodes n) = [Some adata] ->
  Unmarshal_RaftAttributes rdata zero_RaftAttributes = (ra, None) ->
  Unmarshal_Attributes adata zero_Attributes = (a, None) ->
  nodeToMember n = Return (Some (mkMember id ra a), None).
Proof.
  intros rk ak Hid Hk Hraft Hattr Hunr Huna.
  destruct (nodeToMember_all_known n id Hid Hk) as (attrs & -> & Hlook).
  { apply (known_valued rk ak); [done|fold rk|fold ak].
    - rewrite Hraft. repeat constructor. by eexists.
    - rewrite Hattr. repeat constructor. by eexists. }
  unfold after_loop. rewrite !Hlook. unfold attrs_after. fold rk ak.
  rewrite Hraft, Hattr. simpl. by rewrite Hunr, Huna.
Qed.

Lemma loop_error_Errorf rk ak nodes : forall attrs err,
  nodeToMember_loop rk ak nodes attrs = Return (inr err) ->
  exists format args, err = Errorf format args.
Proof.
  induction nodes as [|nn nodes IH]; intros attrs err; [discriminate|].
  simpl. destruct (_ && _); [intros [= <-]; by eexists _, _|].
  destruct (Value nn); [apply IH|discriminate].
Qed.

(** X15: what [nodeToMember] returns is never empty-handed: a nil record
    always comes with an error built by [fmt.Errorf], a nil error always
    comes with a record, and a record that is returned, with or without
    error, carries the identity parsed from the last segment of the key
    of the node. *)
Theorem nodeToMember_result_shape (n : NodeExtern)
    (om : option Member) (oe : option error) :
  nodeToMember n = Return (om, oe) ->
  (om = None -> exists format args, oe = Some (Errorf format args))
  /\ (oe = None -> is_Some om)
  /\ (forall m, om = Some m -> IDFromString (path_Base (Key n)) = inl (ID m)).
Proof.
  unfold nodeToMember, mustParseMemberIDFromKey.
  destruct (IDFromString (path_Base (Key n))) as [id|err]; [|discriminate].
  simpl.
  destruct (nodeToMember_loop _ _ _ _) as [[attrs|err]|] eqn:Hloop;
    [| |discriminate]; simpl.
  - destruct (attrs !! _) as [rdata|].
    + destruct (Unmarshal_RaftAttributes _ _) as [ra [err|]].
      * intros [= <- <-]. repeat split; [by eexists _, _|done|done].
      * destruct (attrs !! _) as [adata|].
        -- destruct (Unmarshal_Attributes _ _) as [a [err|]];
             intros [= <- <-]; repeat split; try done;
             by intros m [= <-].
        -- intros [= <- <-]. repeat split; try done. by intros m [= <-].
    + intros [= <- <-]. repeat split; [by eexists _, _|done|done].
  - intros [= <- <-]. repeat split; [|done|done]. intros _.
    apply loop_error_Errorf in Hloop as (format & args & ->).
    by eexists _, _.
Qed.

End NodeToMemberFurther.

Lemma nodeToMember_malformed_identity_witness :
  nodeToMember (H := demo_Externals)
    (mkNodeExtern "members/xyz" None
       [mkNodeExtern "members/xyz/raftAttributes" (Some "{http://a:1") []])
  = Panic (LogPanicf "unexpected parse member id error: %v"
             [ArgError (ExternalError "invalid syntax")]).
Proof.
  apply (nodeToMember_malformed_identity (H := demo_Externals)).
  reflexivity.
Defined.

Lemma nodeToMember_both_blobs_witness :
  nodeToMember (H := demo_Externals)
    (mkNodeExtern "members/1f" None
       [mkNodeExtern "members/1f/attributes" (Some "{m1") [];
        mkNodeExtern "members/1f/raftAttributes" (Some "{http://a:1") []])
  = Return (Some (mkMember 31 (mkRaftAttributes (Some ["http://a:1"]))
                    (mkAttributes "m1" None)), None).
Proof.
  apply (nodeToMember_both_blobs (H := demo_Externals) _ 31
           "{http://a:1" "{m1").
  - reflexivity.
  - constructor; [right; reflexivity|].
    constructor; [left; reflexivity|]. constructor.
  - reflexivity.
  - reflexivity.
  - reflexivity.
  - reflexivity.
Defined.

Lemma nodeToMember_result_shape_witness :
  IDFromString (Externals := demo_Externals)
    (path_Base (Externals := demo_Externals) "members/1f")
  = inl 31.
Proof.
  destruct (nodeToMember_result_shape (H := demo_Externals)
              (mkNodeExtern "members/1f" None
                 [mkNodeExtern "members/1f/attributes" (Some "oops") [];
                  mkNodeExtern "members/1f/raftAttributes"
                    (Some "{http://a:1") []])
              (Some (mkMember 31 (mkRaftAttributes (Some ["http://a:1"]))
                       zero_Attributes))
              (Some (Errorf "unmarshal attributes error: %v"
                       [ArgError (ExternalError "invalid character")])))
    as (_ & _ & Hid).
  - reflexivity.
  - apply (Hid (mkMember 31 (mkRaftAttributes (Some ["http://a:1"]))
                  zero_Attributes)).
    reflexivity.
Defined.

Section NodeToMemberOrder.
Context `{Externals}.

Lemma loop_key_value rk ak nodes : forall nodes' attrs,
  key_value <$> nodes = key_value <$> nodes' ->
  nodeToMember_loop rk ak nodes attrs = nodeToMember_loop rk ak nodes' attrs.
Proof.
  induction nodes as [|nn nodes IH]; intros [|nn' nodes'] attrs Heq;
    simpl in Heq; try discriminate; [reflexivity|].
  injection Heq as Hkey Hval Hrest. simpl. rewrite Hkey, Hval.
  destruct (_ && _); [reflexivity|].
  destruct (Value nn'); [by apply IH|reflexivity].
Qed.

(** X16: [nodeToMember] reads of the node its key and, of each child, the
    key and the value only: two nodes that agree on these decode alike,
    whatever their own values and the nodes below their children. *)
Theorem nodeToMember_reads_keys_and_values (n n' : NodeExtern) :
  Key n = Key n' ->
  key_value <$> Nodes n = key_value <$> Nodes n' ->
  nodeToMember n = nodeToMember n'.
Proof.
  intros Hkey Hkv. unfold nodeToMember. rewrite Hkey.
  by rewrite (loop_key_value _ _ (Nodes n) (Nodes n')).
Qed.

Lemma filter_key_length k (nodes : list NodeExtern) :
  NoDup (Key <$> nodes) ->
  (length (filter (fun nn => Key nn = k) nodes) <= 1)%nat.
Proof.
  induction nodes as [|nn nodes IH]; intros Hnd; [simpl; lia|].
  rewrite fmap_cons in Hnd. apply NoDup_cons in Hnd as [Hnotin Hnd].
  rewrite filter_cons. case_decide as Hk; [|by apply IH].
  assert (filter (fun nn0 => Key nn0 = k) nodes = []) as ->; [|simpl; lia].
  destruct (filter _ nodes) as [|x l] eqn:Hf; [reflexivity|].
  assert (x ∈ filter (fun nn0 => Key nn0 = k) nodes) as Hin
    by (rewrite Hf; left).
  apply list_elem_of_filter in Hin as [Hxk Hin]. destruct Hnotin.
  rewrite Hk, <- Hxk. by apply list_elem_of_fmap_2.
Qed.

Lemma blobs_Permutation k (nodes nodes' : list NodeExtern) :
  NoDup (Key <$> nodes) -> nodes ≡ₚ nodes' ->
  blobs k nodes = blobs k nodes'.
Proof.
  intros Hnd Hp. unfold blobs. f_equal.
  pose proof (filter_key_length k nodes Hnd) as Hlen.
  assert (filter (fun nn => Key nn = k) nodes
          ≡ₚ filter (fun nn => Key nn = k) nodes') as Hpf by by rewrite Hp.
  destruct (filter _ nodes) as [|x [|y l]]; simpl in Hlen; [| |lia].
  - by apply Permutation_nil_l in Hpf.
  - by apply Permutation_singleton_l in Hpf.
Qed.

(** X17: the order of the children has no part in the result when they
    have distinct recognized keys and carry values: the node with its
    children in any other order decodes alike. *)
Theorem nodeToMember_children_order (n n' : NodeExtern) :
  let raftAttrKey := path_Join (Key n) raftAttributesSuffix in
  let attrKey := path_Join (Key n) attributesSuffix in
  Key n' = Key n ->
  Nodes n ≡ₚ Nodes n' ->
  NoDup (Key <$> Nodes n) ->
  Forall (recognized raftAttrKey attrKey) (Nodes n) ->
  Forall valued (Nodes n) ->
  nodeToMember n' = nodeToMember n.
Proof.
  intros rk ak Hkey Hp Hnd Hk Hv.
  destruct (IDFromString (path_Base (Key n))) as [id|err] eqn:Hid.
  - assert (Hid' : IDFromString (path_Base (Key n')) = inl id)
      by by rewrite Hkey.
    destruct (nodeToMember_all_known n id Hid Hk Hv) as (attrs & -> & Hlook).
    destruct (nodeToMember_all_known n' id Hid') as (attrs' & -> & Hlook').
    { rewrite Hkey. fold rk ak. by rewrite <- Hp. }
    { by rewrite <- Hp. }
    assert (attrs' = attrs) as ->.
    { apply map_eq. intros k. rewrite Hlook, Hlook'. unfold attrs_after.
      by rewrite (blobs_Permutation k (Nodes n) (Nodes n')). }
    unfold after_loop. by rewrite Hkey.
  - unfold nodeToMember, mustParseMemberIDFromKey. by rewrite Hkey, Hid.
Qed.

End NodeToMemberOrder.

Lemma nodeToMember_reads_keys_and_values_witness :
  nodeToMember (H := demo_Externals)
    (mkNodeExtern "members/1f" (Some "x")
       [mkNodeExtern "members/1f/raftAttributes" (Some "{http://a:1")
          [mkNodeExtern "below" None []]])
  = nodeToMember (H := demo_Externals)
      (mkNodeExtern "members/1f" None
         [mkNodeExtern "members/1f/raftAttributes" (Some "{http://a:1") []]).
Proof.
  apply (nodeToMember_reads_keys_and_values (H := demo_Externals));
    reflexivity.
Defined.

Lemma nodeToMember_children_order_witness :
  nodeToMember (H := demo_Externals)
    (mkNodeExtern "members/1f" None
       [mkNodeExtern "members/1f/raftAttributes" (Some "{http://a:1") [];
        mkNodeExtern "members/1f/attributes" (Some "{m1") []])
  = nodeToMember (H := demo_Externals)
      (mkNodeExtern "members/1f" None
         [mkNodeExtern "members/1f/attributes" (Some "{m1") [];
          mkNodeExtern "members/1f/raftAttributes" (Some "{http://a:1") []]).
Proof.
  apply (nodeToMember_children_order (H := demo_Externals)).
  - reflexivity.
  - apply perm_swap.
  - apply (bool_decide_unpack _). vm_compute. exact I.
  - constructor; [right; reflexivity|].
    constructor; [left; reflexivity|]. constructor.
  - repeat constructor; by eexists.
Defined.

(** ** The keys of the store and nodeToMember *)

(** X18: the decoder agrees with the keys the package builds. When the
    libraries parse back the identity from the last segment of
    [memberStoreKey id] and join the two suffixes to different keys,
    [mustParseMemberIDFromKey] returns [id] on that key, and the node of
    that key whose children are the attributes at
    [MemberAttributesStorePath id] and the raft attributes beside it
    decodes, without error, to the record of identity [id] with what the
    two blobs deserialize to. *)
Theorem nodeToMember_of_store_keys `{Externals} `{StoreKeys}
    (id : ID_t) (rblob ablob : string) (ra : RaftAttributes) (a : Attributes)
    (v : option string) (kids1 kids2 : list NodeExtern) :
  IDFromString (path_Base (memberStoreKey id)) = inl id ->
  path_Join (memberStoreKey id) raftAttributesSuffix
    <> MemberAttributesStorePath id ->
  Unmarshal_RaftAttributes rblob zero_RaftAttributes = (ra, None) ->
  Unmarshal_Attributes ablob zero_Attributes = (a, None) ->
  mustParseMemberIDFromKey (memberStoreKey id) = Return id
  /\ nodeToMember
       (mkNodeExtern (memberStoreKey id) v
          [mkNodeExtern (MemberAttributesStorePath id) (Some ablob) kids1;
           mkNodeExtern (path_Join (memberStoreKey id) raftAttributesSuffix)
             (Some rblob) kids2])
     = Return (Some (mkMember id ra a), None).
Proof.
  intros Hid Hne Hunr Huna. split.
  - unfold mustParseMemberIDFromKey. by rewrite Hid.
  - set (n := mkNodeExtern _ _ _).
    destruct (nodeToMember_all_known n id Hid) as (attrs & -> & Hlook).
    { constructor; [by right|]. constructor; [by left|]. constructor. }
    { repeat constructor; by eexists. }
    unfold after_loop. rewrite !Hlook. unfold attrs_after, blobs.
    cbn [Key Nodes n]. rewrite !filter_cons, !filter_nil.
    fold (MemberAttributesStorePath id).
    repeat case_decide; simpl in *; try congruence. by rewrite Hunr, Huna.
Qed.

Lemma nodeToMember_of_store_keys_witness :
  nodeToMember (H := demo_Externals)
    (mkNodeExtern "/0/members/1f" None
       [mkNodeExtern "/0/members/1f/attributes" (Some "{m1") [];
        mkNodeExtern "/0/members/1f/raftAttributes" (Some "{http://a:1") []])
  = Return (Some (mkMember 31 (mkRaftAttributes (Some ["http://a:1"]))
                    (mkAttributes "m1" None)), None).
Proof.
  apply (nodeToMember_of_store_keys (H := demo_Externals)
           (H0 := demo_StoreKeys) 31 "{http://a:1" "{m1").
  - reflexivity.
  - discriminate.
  - reflexivity.
  - reflexivity.
Defined.

(** ** Clone, further *)

Section CloneFurther.
Import Heap.

(** The copy of one sequence, on the store itself: nil for nil, else the
    whole of one new array of the length of the source; the arrays of the
    store before are as they were. *)
Lemma clone_slice_store h s :
  wf_slice h s ->
  exists d h',
    clone_slice s h = (d, h')
    /\ (forall l, l ∈ dom h -> h' !! l = h !! l)
    /\ (s = nil_slice /\ d = nil_slice
        \/ s <> nil_slice /\ exists l, d = Slice l 0 (len s) (len s)).
Proof.
  intros Hwf. destruct s as [|ls off k c].
  - exists nil_slice, h. repeat split; auto.
  - eexists _, _. split; [by apply clone_slice_Slice|]. split.
    + intros l Hl. rewrite lookup_insert_ne; [done|].
      intros <-. by apply (is_fresh (dom h)).
    + right. split; [done|]. by eexists.
Qed.

(** What [Clone] does to a record and a store, for the properties
    below. *)
Lemma Clone_store m h :
  wf_member h m ->
  exists mm h',
    Clone (Some m) h = (Some mm, h')
    /\ wf_member h' mm /\ wf_member h' m
    /\ member_val h' mm = member_val h m
    /\ dom h ⊆ dom h'
    /\ (forall l, l ∈ dom h -> h' !! l = h !! l)
    /\ (forall l, array_of (PeerURLs mm) = Some l
                  \/ array_of (ClientURLs mm) = Some l -> l ∉ dom h)
    /\ (PeerURLs m = nil_slice /\ PeerURLs mm = nil_slice
        \/ PeerURLs m <> nil_slice
           /\ exists l, PeerURLs mm
                        = Slice l 0 (len (PeerURLs m)) (len (PeerURLs m)))
    /\ (ClientURLs m = nil_slice /\ ClientURLs mm = nil_slice
        \/ ClientURLs m <> nil_slice
           /\ exists l, ClientURLs mm
                        = Slice l 0 (len (ClientURLs m)) (len (ClientURLs m))).
Proof.
  intros [Hwp Hwc]. rewrite Clone_clone_slice.
  destruct (clone_slice_spec h _ Hwp)
    as (p & h1 & Hp & _ & Hvalp & Hwfp & Hfreshp & Hframe1 & Hdom1).
  destruct (clone_slice_store h _ Hwp) as (p' & h1' & Hp' & Hraw1 & Hshp).
  rewrite Hp in Hp'. injection Hp' as <- <-. rewrite Hp.
  destruct (Hframe1 _ Hwc) as [Hvalc1 Hwc1].
  destruct (Hframe1 _ Hwp) as [Hvalp1 Hwp1].
  destruct (clone_slice_spec h1 _ Hwc1)
    as (c & h2 & Hc & _ & Hvalc & Hwfc & Hfreshc & Hframe2 & Hdom2).
  destruct (clone_slice_store h1 _ Hwc1) as (c' & h2' & Hc' & Hraw2 & Hshc).
  rewrite Hc in Hc'. injection Hc' as <- <-. rewrite Hc.
  destruct (Hframe2 _ Hwfp) as [Hvalp2 Hwfp2].
  destruct (Hframe2 _ Hwp1) as [Hvalpm2 Hwp2].
  destruct (Hframe2 _ Hwc1) as [Hvalcm2 Hwc2].
  eexists _, _. split; [reflexivity|]. cbn [PeerURLs ClientURLs].
  split; [by split|]. split; [by split|].
  split; [unfold member_val; cbn; congruence|].
  split; [by etrans|].
  split; [intros l Hl; rewrite Hraw2 by (by apply Hdom1); by apply Hraw1|].
  split; [|by split].
  intros l [Hl|Hl]; [by apply Hfreshp|].
  intros Hin. by apply (Hfreshc l Hl), Hdom1.
Qed.

End CloneFurther.

(** X19: [Clone] only adds to the store: every array that was there is
    there afterwards with the same contents, and both the original and
    the copy are records whose slices lie within arrays of the new
    store. *)
Theorem Clone_preserves_store (m : Heap.Member)
    (h : gmap Heap.loc (list string)) :
  Heap.wf_member h m ->
  exists mm h',
    Heap.Clone (Some m) h = (Some mm, h')
    /\ dom h ⊆ dom h'
    /\ (forall l, l ∈ dom h -> h' !! l = h !! l)
    /\ Heap.wf_member h' m /\ Heap.wf_member h' mm.
Proof.
  intros Hwf.
  destruct (Clone_store m h Hwf)
    as (mm & h' & HC & Hwmm & Hwm & _ & Hdom & Hraw & _).
  by exists mm, h'.
Qed.

(** X20: the copy drops the spare capacity and the offset of the source:
    each non-nil sequence of the copy starts at the beginning of its own
    array and has the length of the source as its length and as its
    capacity, whatever the capacity of the source. *)
Theorem Clone_trims_capacity (m : Heap.Member)
    (h : gmap Heap.loc (list string)) :
  Heap.wf_member h m ->
  exists mm h',
    Heap.Clone (Some m) h = (Some mm, h')
    /\ (Heap.PeerURLs m <> Heap.nil_slice ->
        exists l, Heap.PeerURLs mm
                  = Heap.Slice l 0 (Heap.len (Heap.PeerURLs m))
                      (Heap.len (Heap.PeerURLs m)))
    /\ (Heap.ClientURLs m <> Heap.nil_slice ->
        exists l, Heap.ClientURLs mm
                  = Heap.Slice l 0 (Heap.len (Heap.ClientURLs m))
                      (Heap.len (Heap.ClientURLs m))).
Proof.
  intros Hwf.
  destruct (Clone_store m h Hwf)
    as (mm & h' & HC & _ & _ & _ & _ & _ & _ & Hp & Hc).
  exists mm, h'. split; [exact HC|]. split; intros Hne.
  - by destruct Hp as [[? _]|[_ ?]].
  - by destruct Hc as [[? _]|[_ ?]].
Qed.

(** X21: a copy of a copy reads equal to the original in all fields, and
    the three records share no array: the arrays of the first copy are
    not of the store before, those of the second copy are not of the
    store after the first. *)
Theorem Clone_twice (m : Heap.Member) (h : gmap Heap.loc (list string)) :
  Heap.wf_member h m ->
  exists m1 h1 m2 h2,
    Heap.Clone (Some m) h = (Some m1, h1)
    /\ Heap.Clone (Some m1) h1 = (Some m2, h2)
    /\ member_val h2 m2 = member_val h m
    /\ member_val h2 m1 = member_val h m
    /\ member_val h2 m = member_val h m
    /\ (forall l, Heap.array_of (Heap.PeerURLs m1) = Some l
                  \/ Heap.array_of (Heap.ClientURLs m1) = Some l ->
                  (l ∉ dom h) /\ l ∈ dom h1)
    /\ (forall l, Heap.array_of (Heap.PeerURLs m2) = Some l
                  \/ Heap.array_of (Heap.ClientURLs m2) = Some l ->
                  l ∉ dom h1).
Proof.
  intros Hwf.
  destruct (Clone_store m h Hwf)
    as (m1 & h1 & HC1 & Hw1 & Hwm1 & Hval1 & Hdom1 & Hraw1 & Hfresh1 & _).
  destruct (Clone_store m1 h1 Hw1)
    as (m2 & h2 & HC2 & Hw2 & Hw12 & Hval2 & Hdom2 & Hraw2 & Hfresh2 & _).
  assert (Hread : forall (hh hh' : gmap Heap.loc (list string)) r,
            Heap.wf_member hh r ->
            (forall l, l ∈ dom hh -> hh' !! l = hh !! l) ->
            member_val hh' r = member_val hh r).
  { intros hh hh' r [Hrp Hrc] Hraw. unfold member_val, Heap.slice_val.
    assert (Hel : forall s, Heap.wf_slice hh s ->
              Heap.elems hh' s = Heap.elems hh s).
    { intros [|l off k c]; [done|]. intros (arr & Harr & _). simpl.
      rewrite Hraw; [done|]. apply elem_of_dom. by eexists. }
    by rewrite !Hel. }
  exists m1, h1, m2, h2. split; [exact HC1|]. split; [exact HC2|].
  split; [congruence|].
  split; [rewrite (Hread h1 h2 m1 Hw1 Hraw2); exact Hval1|].
  split.
  { rewrite (Hread h1 h2 m Hwm1 Hraw2). by apply Hread. }
  split; [|exact Hfresh2].
  intros l Hl. split; [by apply Hfresh1|].
  destruct Hw1 as [Hp Hc].
  destruct Hl as [Hl|Hl];
    [exact (wf_slice_array h1 _ l Hp Hl)|exact (wf_slice_array h1 _ l Hc Hl)].
Qed.

Lemma Clone_preserves_store_witness :
  let h : gmap Heap.loc (list string) :=
    {[ 1%positive := ["http://a:1"; "http://b:2"; "spare"] ]} in
  let m := Heap.mkMember 7 (Heap.Slice 1%positive 0 2 3) "m1" Heap.nil_slice in
  exists mm h',
    Heap.Clone (Some m) h = (Some mm, h')
    /\ h' !! 1%positive = Some ["http://a:1"; "http://b:2"; "spare"].
Proof.
  intros h m.
  destruct (Clone_preserves_store m h) as (mm & h' & HC & _ & Hraw & _).
  - split; [|exact I].
    exists ["http://a:1"; "http://b:2"; "spare"].
    split; [reflexivity|]. simpl. lia.
  - exists mm, h'. split; [exact HC|]. rewrite Hraw; [reflexivity|].
    apply elem_of_dom. by eexists.
Defined.

Lemma Clone_trims_capacity_witness :
  let h : gmap Heap.loc (list string) :=
    {[ 1%positive := ["skipped"; "http://a:1"; "http://b:2"; "spare"] ]} in
  let m := Heap.mkMember 7 (Heap.Slice 1%positive 1 2 3) "m1" Heap.nil_slice in
  exists mm h' l,
    Heap.Clone (Some m) h = (Some mm, h')
    /\ Heap.PeerURLs mm = Heap.Slice l 0 2 2.
Proof.
  intros h m.
  destruct (Clone_trims_capacity m h) as (mm & h' & HC & Hp & _).
  - split; [|exact I].
    exists ["skipped"; "http://a:1"; "http://b:2"; "spare"].
    split; [reflexivity|]. simpl. lia.
  - destruct Hp as [l Hl]; [discriminate|]. by exists mm, h', l.
Defined.

Lemma Clone_twice_witness :
  let h : gmap Heap.loc (list string) :=
    {[ 1%positive := ["http://a:1"; "http://b:2"] ]} in
  let m := Heap.mkMember 7 (Heap.Slice 1%positive 0 2 2) "m1" Heap.nil_slice in
  exists m2 h2,
    member_val h2 m2
    = mkMember 7 (mkRaftAttributes (Some ["http://a:1"; "http://b:2"]))
        (mkAttributes "m1" None).
Proof.
  intros h m.
  destruct (Clone_twice m h) as (m1 & h1 & m2 & h2 & _ & _ & Hval & _).
  - split; [|exact I].
    exists ["http://a:1"; "http://b:2"]. split; [reflexivity|]. simpl. lia.
  - exists m2, h2. rewrite Hval. reflexivity.
Defined.
